(** * The cache limiter of [common/cacheLimiter.go]

    A shallow embedding of the byte-budget limiter ([cacheLimiter], its
    constructor and its three methods) together with the machine arithmetic
    it relies on: two's-complement [int64] addition as performed by
    [atomic.AddInt64], and IEEE-754 binary32 arithmetic for the strict
    threshold [int64(float32(lim) * 0.75)] and for the retry delay. *)

From Stdlib Require Import ZArith List Bool Lia.
From Stdlib Require Import Floats.SpecFloat.
Import ListNotations.
Local Open Scope Z_scope.

(** ** Go's [int64] *)

Module Int64.

Definition min_int64 : Z := - 2 ^ 63.
Definition max_int64 : Z := 2 ^ 63 - 1.

(** The values an [int64] variable can hold. *)
Definition in_range (z : Z) : Prop := min_int64 <= z <= max_int64.

Definition in_rangeb (z : Z) : bool := (min_int64 <=? z) && (z <=? max_int64).

(** Reduction of a mathematical integer to its two's-complement
    representative. *)
Definition wrap (z : Z) : Z := (z + 2 ^ 63) mod 2 ^ 64 - 2 ^ 63.

(** [a + b] on [int64]. *)
Definition add (a b : Z) : Z := wrap (a + b).

(** Unary minus on [int64]; [neg min_int64 = min_int64]. *)
Definition neg (a : Z) : Z := wrap (- a).

End Int64.

(** ** Go's [float32]

    IEEE-754 binary32, through the standard library's executable
    specification of floating-point arithmetic instantiated at 24 bits of
    precision. *)

Module Float32.

Definition prec : Z := 24.
Definition emax : Z := 128.

Definition float32 : Type := spec_float.

(** The conversion [float32(z)] of an integer, round to nearest even. *)
Definition of_int64 (z : Z) : float32 := binary_normalize prec emax z 0 false.

(** The product [x * y] of two [float32] values. *)
Definition mul (x y : float32) : float32 := SFmul prec emax x y.

(** The constant [0.75], exactly representable: [12582912 * 2^-24]. *)
Definition const_0_75 : float32 := S754_finite false 12582912 (-24).

(** The constant [2]. *)
Definition const_2 : float32 := S754_finite false 8388608 (-22).

(** [m * 2^e] with the fraction discarded, for [0 <= m]. *)
Definition dyadic_trunc (m e : Z) : Z :=
  if 0 <=? e then m * 2 ^ e else m / 2 ^ (- e).

(** The integer part of a finite float (rounding toward zero). *)
Definition truncate (f : float32) : option Z :=
  match f with
  | S754_zero _ => Some 0
  | S754_finite s m e => Some (cond_Zopp s (dyadic_trunc (Zpos m) e))
  | S754_infinity _ | S754_nan => None
  end.

(** The conversion [int64(f)].  Go truncates toward zero; when the value
    does not fit the result is implementation-dependent, and we take what
    amd64's CVTTSS2SI produces, the "integer indefinite" value
    [min_int64]. *)
Definition to_int64 (f : float32) : Z :=
  match truncate f with
  | Some z => if Int64.in_rangeb z then z else Int64.min_int64
  | None => Int64.min_int64
  end.

(** The floats [rand.Float32] can return: valid binary32 numbers of the
    half-open interval [[0.0, 1.0)]. *)
Definition in_unit_interval (r : float32) : Prop :=
  match r with
  | S754_zero _ => True
  | S754_finite s m e =>
      s = false /\ bounded prec emax m e = true /\ Zpos (digits2_pos m) + e <= 0
  | S754_infinity _ | S754_nan => False
  end.

(** ** Arithmetic reading of binary32 rounding

    [round_sig24 z] is [z] rounded to 24 significant bits, ties to even:
    with [n] the number of bits in excess of 24, the low [n] bits are
    dropped and the remaining 24-bit quotient is bumped when the dropped
    part exceeds half a unit, or equals it and the quotient is odd. *)

Definition excess_bits (z : Z) : Z := Z.log2 (Z.abs z) + 1 - 24.

Definition round_half_even (a n : Z) : Z :=
  let q := a / 2 ^ n in
  let r := a mod 2 ^ n in
  match 2 * r ?= 2 ^ n with
  | Lt => q
  | Eq => if Z.even q then q else q + 1
  | Gt => q + 1
  end.

Definition round_sig24 (z : Z) : Z :=
  let n := excess_bits z in
  if n <=? 0 then z else Z.sgn z * (round_half_even (Z.abs z) n * 2 ^ n).

(** The strict ceiling as the specification words it: [0.75 * limit]
    under the floating-point truncation rule, that is, the limit rounded
    to single precision, multiplied by [3/4] with the product rounded to
    single precision again, and the fraction dropped (toward zero). *)
Definition three_quarters (lim : Z) : Z :=
  Z.quot (round_sig24 (3 * round_sig24 lim)) 4.

End Float32.

(** ** The limiter *)

Record cacheLimiter : Type := { value : Z; limit : Z }.

Definition NewCacheLimiter (limit : Z) : cacheLimiter :=
  {| value := 0; limit := limit |}.

(** [atomic.AddInt64(&c.value, delta)]: stores the wrapped sum and returns
    it. *)
Definition AddInt64 (c : cacheLimiter) (delta : Z) : Z * cacheLimiter :=
  let v := Int64.add (value c) delta in
  (v, {| value := v; limit := limit c |}).

(** [int64(float32(lim) * 0.75)]. *)
Definition strictLimit (lim : Z) : Z :=
  Float32.to_int64 (Float32.mul (Float32.of_int64 lim) Float32.const_0_75).

(** The threshold [lim] that [TryAddBytes] compares against. *)
Definition effectiveLimit (c : cacheLimiter) (useRelaxedLimit : bool) : Z :=
  let lim := limit c in
  let strict := negb useRelaxedLimit in
  if strict then strictLimit lim else lim.

Definition TryAddBytes (c : cacheLimiter) (count : Z) (useRelaxedLimit : bool)
  : bool * cacheLimiter :=
  let lim := effectiveLimit c useRelaxedLimit in
  let '(v, c1) := AddInt64 c count in
  if v <=? lim then (true, c1)
  else
    let '(_, c2) := AddInt64 c1 (Int64.neg count) in
    (false, c2).

Definition RemoveBytes (c : cacheLimiter) (count : Z) : cacheLimiter :=
  let negativeDelta := Int64.neg count in
  snd (AddInt64 c negativeDelta).

(** ** Sequences of calls *)

Inductive Call : Type :=
| CallTryAddBytes (count : Z) (useRelaxedLimit : bool)
| CallRemoveBytes (count : Z).

(** A call together with what it returned ([TryAddBytes] only). *)
Inductive Event : Type :=
| EvTryAddBytes (count : Z) (useRelaxedLimit : bool) (added : bool)
| EvRemoveBytes (count : Z).

Definition call_in_range (k : Call) : Prop :=
  match k with
  | CallTryAddBytes count _ => Int64.in_range count
  | CallRemoveBytes count => Int64.in_range count
  end.

Definition step (c : cacheLimiter) (k : Call) : Event * cacheLimiter :=
  match k with
  | CallTryAddBytes count r =>
      let '(added, c') := TryAddBytes c count r in
      (EvTryAddBytes count r added, c')
  | CallRemoveBytes count => (EvRemoveBytes count, RemoveBytes c count)
  end.

(** Runs the calls in order; returns the history and the final limiter. *)
Fixpoint run (c : cacheLimiter) (ks : list Call) : list Event * cacheLimiter :=
  match ks with
  | [] => ([], c)
  | k :: ks' =>
      let '(ev, c1) := step c k in
      let '(evs, c2) := run c1 ks' in
      (ev :: evs, c2)
  end.

(** Sum of the counts of the [TryAddBytes] calls that returned [true]. *)
Fixpoint committed (evs : list Event) : Z :=
  match evs with
  | [] => 0
  | EvTryAddBytes count _ true :: evs' => count + committed evs'
  | _ :: evs' => committed evs'
  end.

(** Sum of the counts of the [RemoveBytes] calls. *)
Fixpoint removed (evs : list Event) : Z :=
  match evs with
  | [] => 0
  | EvRemoveBytes count :: evs' => count + removed evs'
  | _ :: evs' => removed evs'
  end.

(** ** The blocking add *)

Definition time_Second : Z := 1000000000.

(** [time.Duration(2 * float32(time.Second) * rand.Float32())], in
    nanoseconds, for the draw [r]. *)
Definition backoff (r : Float32.float32) : Z :=
  Float32.to_int64
    (Float32.mul (Float32.mul Float32.const_2 (Float32.of_int64 time_Second)) r).

Section WaitUntilAddBytes.

(** The type of Go [error] values other than [nil]. *)
Variable error : Type.

(** A [context.Context], reduced to what the method asks of it: the
    non-nil value [ctx.Err()] has once [ctx.Done()] is closed. *)
Record Context : Type := { Err : error }.

(** What the environment contributes to one pass through the loop:
    the answer of the [useRelaxedLimit] predicate, the draw of
    [rand.Float32], the calls other goroutines make on the limiter while
    this one is parked in [select] (whole calls, in the order they take
    effect), and which branch of the [select] proceeds ([true]:
    [<-ctx.Done()]; [false]: the timer). *)
Record Tick : Type :=
  { useRelaxedLimit : bool;
    draw : Float32.float32;
    others : list Call;
    doneFirst : bool }.

(** [Returned None] is [return nil]; [Blocked] means the schedule ended
    with the goroutine still in the loop. *)
Inductive Outcome : Type :=
| Returned (err : option error)
| Blocked.

Record WaitResult : Type :=
  { outcome : Outcome;
    attempts : list bool;   (* results of the TryAddBytes calls made *)
    delays : list Z;        (* durations handed to time.After *)
    final : cacheLimiter }.

Fixpoint WaitUntilAddBytes (ctx : Context) (c : cacheLimiter) (count : Z)
  (sched : list Tick) : WaitResult :=
  match sched with
  | [] => {| outcome := Blocked; attempts := []; delays := []; final := c |}
  | t :: sched' =>
      let '(added, c1) := TryAddBytes c count (useRelaxedLimit t) in
      if added then
        {| outcome := Returned None; attempts := [true]; delays := [];
           final := c1 |}
      else
        let d := backoff (draw t) in
        let c2 := snd (run c1 (others t)) in
        if doneFirst t then
          {| outcome := Returned (Some (Err ctx)); attempts := [false];
             delays := [d]; final := c2 |}
        else
          let r := WaitUntilAddBytes ctx c2 count sched' in
          {| outcome := outcome r; attempts := false :: attempts r;
             delays := d :: delays r; final := final r |}
  end.

End WaitUntilAddBytes.

Arguments Err {error} _.
Arguments Returned {error} _.
Arguments Blocked {error}.
Arguments outcome {error} _.
Arguments attempts {error} _.
Arguments delays {error} _.
Arguments final {error} _.
Arguments WaitUntilAddBytes {error} _ _ _ _.

(** ** What the blocking add meets

    The limiter at the start of pass [i] of a wait that is still in its
    loop: the initial limiter after the calls the other goroutines made
    during the first [i] passes.  (The waiter's own refused attempts have
    been rolled back.) *)
Definition limiter_at_pass (c : cacheLimiter) (sched : list Tick) (i : nat)
  : cacheLimiter :=
  snd (run c (flat_map others (firstn i sched))).

(** What [TryAddBytes] returns when called at pass [i], whose tick is [t]. *)
Definition attempt_at (c : cacheLimiter) (count : Z) (sched : list Tick)
  (i : nat) (t : Tick) : bool :=
  fst (TryAddBytes (limiter_at_pass c sched i) count (useRelaxedLimit t)).

(** The loop gets as far as pass [i]: at every earlier pass [TryAddBytes]
    returned [false] and the timer, not [ctx.Done()], ended the
    [select]. *)
Definition reaches_pass (c : cacheLimiter) (count : Z) (sched : list Tick)
  (i : nat) : Prop :=
  forall j t, (j < i)%nat -> nth_error sched j = Some t ->
              attempt_at c count sched j t = false /\ doneFirst t = false.

(** ** Requests and releases of a list of calls *)

(** The count a call passes. *)
Definition call_count (k : Call) : Z :=
  match k with
  | CallTryAddBytes count _ => count
  | CallRemoveBytes count => count
  end.

(** Sum of the counts that the [TryAddBytes] calls of a list ask for. *)
Fixpoint requested (ks : list Call) : Z :=
  match ks with
  | [] => 0
  | CallTryAddBytes count _ :: ks' => count + requested ks'
  | CallRemoveBytes _ :: ks' => requested ks'
  end.

(** Sum of the counts that its [RemoveBytes] calls give back. *)
Fixpoint released (ks : list Call) : Z :=
  match ks with
  | [] => 0
  | CallTryAddBytes _ _ :: ks' => released ks'
  | CallRemoveBytes count :: ks' => count + released ks'
  end.

(** ** Goroutines, one atomic operation at a time

    [sync/atomic] operations are sequentially consistent, so concurrent
    calls on one limiter behave as some interleaving of their
    [atomic.AddInt64] operations; [limit] is never written after
    construction and may be read at any time. *)

(** A goroutine in a method of the limiter: about to make a call; inside
    [TryAddBytes] between the add that went over the limit and the add
    that takes it back; or returned. *)
Inductive Goroutine : Type :=
| Pending (k : Call)
| RollingBack (count : Z) (relaxed : bool)
| Finished (ev : Event).

(** The goroutine's next [atomic.AddInt64], with the goroutine-local code
    before and after it. *)
Definition atomic_step (c : cacheLimiter) (g : Goroutine)
  : Goroutine * cacheLimiter :=
  match g with
  | Pending (CallTryAddBytes count relaxed) =>
      let lim := effectiveLimit c relaxed in
      let '(v, c1) := AddInt64 c count in
      if v <=? lim then (Finished (EvTryAddBytes count relaxed true), c1)
      else (RollingBack count relaxed, c1)
  | RollingBack count relaxed =>
      let '(_, c2) := AddInt64 c (Int64.neg count) in
      (Finished (EvTryAddBytes count relaxed false), c2)
  | Pending (CallRemoveBytes count) =>
      (Finished (EvRemoveBytes count), RemoveBytes c count)
  | Finished _ => (g, c)
  end.

(** [l] with its [i]-th element replaced by [x]; [l] itself when it has
    no such element. *)
Fixpoint set_nth {A : Type} (i : nat) (x : A) (l : list A) : list A :=
  match l, i with
  | [], _ => []
  | _ :: l', O => x :: l'
  | y :: l', S i' => y :: set_nth i' x l'
  end.

(** Runs the goroutines under a scheduler: each entry of [sched] names the
    goroutine that performs its next atomic step (an entry naming no
    goroutine is skipped). *)
Fixpoint interleave (c : cacheLimiter) (gs : list Goroutine) (sched : list nat)
  : list Goroutine * cacheLimiter :=
  match sched with
  | [] => (gs, c)
  | i :: sched' =>
      match nth_error gs i with
      | Some g =>
          let '(g', c') := atomic_step c g in
          interleave c' (set_nth i g' gs) sched'
      | None => interleave c gs sched'
      end
  end.

(** The scheduler that lets each of [n] goroutines, in turn, run its call
    to the end. *)
Definition one_by_one (n : nat) : list nat :=
  flat_map (fun i => [i; i]) (seq 0 n).

(** What the goroutines that have returned got back. *)
Fixpoint history (gs : list Goroutine) : list Event :=
  match gs with
  | [] => []
  | Finished ev :: gs' => ev :: history gs'
  | _ :: gs' => history gs'
  end.

(** The bytes added by calls that are about to take them back. *)
Fixpoint overshoot (gs : list Goroutine) : Z :=
  match gs with
  | [] => 0
  | RollingBack count _ :: gs' => count + overshoot gs'
  | _ :: gs' => overshoot gs'
  end.

(** The goroutine's call has returned. *)
Definition is_finished (g : Goroutine) : Prop :=
  match g with Finished _ => True | _ => False end.

(** The call a goroutine is making or has made. *)
Definition call_of (g : Goroutine) : Call :=
  match g with
  | Pending k => k
  | RollingBack count relaxed => CallTryAddBytes count relaxed
  | Finished (EvTryAddBytes count relaxed _) => CallTryAddBytes count relaxed
  | Finished (EvRemoveBytes count) => CallRemoveBytes count
  end.

(** What a goroutine has added to the counter so far, net. *)
Definition held (g : Goroutine) : Z :=
  match g with
  | Pending _ => 0
  | RollingBack count _ => count
  | Finished (EvTryAddBytes count _ true) => count
  | Finished (EvTryAddBytes _ _ false) => 0
  | Finished (EvRemoveBytes count) => - count
  end.

(** Sum of a measure over the goroutines. *)
Fixpoint total (f : Goroutine -> Z) (gs : list Goroutine) : Z :=
  match gs with
  | [] => 0
  | g :: gs' => f g + total f gs'
  end.

(** Measures used in the invariants: the count of a [TryAddBytes] not yet
    begun, of a [RemoveBytes] not yet begun, of a rollback not yet made. *)
Definition pending_add (g : Goroutine) : Z :=
  match g with Pending (CallTryAddBytes count _) => count | _ => 0 end.

Definition pending_remove (g : Goroutine) : Z :=
  match g with Pending (CallRemoveBytes count) => count | _ => 0 end.

Definition rolling_back (g : Goroutine) : Z :=
  match g with RollingBack count _ => count | _ => 0 end.

(** A count that is a non-negative [int64]. *)
Definition sane_count (k : Call) : Prop := 0 <= call_count k <= Int64.max_int64.

(** Indicators of the four states of a goroutine calling [TryAddBytes]. *)
Definition n_pending (g : Goroutine) : Z :=
  match g with Pending _ => 1 | _ => 0 end.
Definition n_rolling (g : Goroutine) : Z :=
  match g with RollingBack _ _ => 1 | _ => 0 end.
Definition n_admitted (g : Goroutine) : Z :=
  match g with Finished (EvTryAddBytes _ _ true) => 1 | _ => 0 end.
Definition n_refused (g : Goroutine) : Z :=
  match g with Finished (EvTryAddBytes _ _ false) => 1 | _ => 0 end.

(** * Properties *)

(** ** [int64] arithmetic *)

Lemma two_pow_63 : 2 ^ 63 = 9223372036854775808.
Proof. reflexivity. Qed.

Lemma two_pow_64 : 2 ^ 64 = 18446744073709551616.
Proof. reflexivity. Qed.

Ltac i64_unfold :=
  unfold Int64.add, Int64.neg, Int64.wrap, Int64.in_range,
    Int64.min_int64, Int64.max_int64 in *;
  rewrite ?two_pow_63, ?two_pow_64 in *.

Lemma wrap_in_range (z : Z) : Int64.in_range (Int64.wrap z).
Proof.
  i64_unfold.
  pose proof (Z.mod_pos_bound (z + 9223372036854775808) 18446744073709551616).
  lia.
Qed.

Lemma wrap_small (z : Z) : Int64.in_range z -> Int64.wrap z = z.
Proof.
  i64_unfold. intros H.
  rewrite Z.mod_small; lia.
Qed.

Lemma wrap_add_l (a b : Z) : Int64.wrap (Int64.wrap a + b) = Int64.wrap (a + b).
Proof.
  unfold Int64.wrap. f_equal.
  replace ((a + 2 ^ 63) mod 2 ^ 64 - 2 ^ 63 + b + 2 ^ 63)
    with ((a + 2 ^ 63) mod 2 ^ 64 + b) by lia.
  rewrite Zplus_mod_idemp_l. f_equal. lia.
Qed.

Lemma wrap_add_r (a b : Z) : Int64.wrap (a + Int64.wrap b) = Int64.wrap (a + b).
Proof.
  rewrite (Z.add_comm a (Int64.wrap b)), wrap_add_l. f_equal. lia.
Qed.

Lemma add_in_range (a b : Z) : Int64.in_range (Int64.add a b).
Proof. apply wrap_in_range. Qed.

Lemma add_exact (a b : Z) :
  Int64.in_range (a + b) -> Int64.add a b = a + b.
Proof. apply wrap_small. Qed.

Lemma neg_exact (a : Z) :
  Int64.min_int64 < a <= Int64.max_int64 -> Int64.neg a = - a.
Proof.
  intros H. apply wrap_small. i64_unfold. lia.
Qed.

Lemma neg_involutive (a : Z) :
  Int64.in_range a -> Int64.neg (Int64.neg a) = a.
Proof.
  intros H.
  destruct (Z.eq_dec a Int64.min_int64) as [->|Hne]; [reflexivity|].
  assert (Int64.min_int64 < a <= Int64.max_int64) as Ha
    by (unfold Int64.in_range in H; lia).
  rewrite (neg_exact a Ha).
  rewrite neg_exact by (i64_unfold; lia). lia.
Qed.

(** Adding [count] and then [-count] is the identity on [int64], also when
    either step overflows. *)
Lemma add_neg_cancel (v count : Z) :
  Int64.in_range v -> Int64.add (Int64.add v count) (Int64.neg count) = v.
Proof.
  intros H. unfold Int64.add, Int64.neg.
  rewrite wrap_add_r, wrap_add_l.
  replace (v + count + - count) with v by lia.
  now apply wrap_small.
Qed.

(** ** Unfolding the methods *)

Lemma cacheLimiter_eta (c : cacheLimiter) :
  {| value := value c; limit := limit c |} = c.
Proof. now destruct c. Qed.

Lemma TryAddBytes_success (c : cacheLimiter) (count : Z) (r : bool) :
  Int64.add (value c) count <= effectiveLimit c r ->
  TryAddBytes c count r
  = (true, {| value := Int64.add (value c) count; limit := limit c |}).
Proof.
  intros H. unfold TryAddBytes, AddInt64.
  apply Z.leb_le in H. now rewrite H.
Qed.

Lemma TryAddBytes_failure (c : cacheLimiter) (count : Z) (r : bool) :
  effectiveLimit c r < Int64.add (value c) count ->
  TryAddBytes c count r
  = (false,
     {| value := Int64.add (Int64.add (value c) count) (Int64.neg count);
        limit := limit c |}).
Proof.
  intros H. unfold TryAddBytes, AddInt64.
  apply Z.leb_gt in H. now rewrite H.
Qed.

Lemma TryAddBytes_cases (c : cacheLimiter) (count : Z) (r : bool) :
  (Int64.add (value c) count <= effectiveLimit c r /\
   TryAddBytes c count r
   = (true, {| value := Int64.add (value c) count; limit := limit c |}))
  \/
  (effectiveLimit c r < Int64.add (value c) count /\
   TryAddBytes c count r
   = (false,
      {| value := Int64.add (Int64.add (value c) count) (Int64.neg count);
         limit := limit c |})).
Proof.
  destruct (Z_le_gt_dec (Int64.add (value c) count) (effectiveLimit c r)) as [H|H].
  - left. split; [assumption | now apply TryAddBytes_success].
  - right. split; [lia | apply TryAddBytes_failure; lia].
Qed.

Lemma RemoveBytes_value (c : cacheLimiter) (count : Z) :
  value (RemoveBytes c count) = Int64.wrap (value c - count).
Proof.
  unfold RemoveBytes, AddInt64, Int64.add, Int64.neg. simpl.
  now rewrite wrap_add_r.
Qed.

Lemma RemoveBytes_limit (c : cacheLimiter) (count : Z) :
  limit (RemoveBytes c count) = limit c.
Proof. reflexivity. Qed.

Lemma TryAddBytes_limit (c : cacheLimiter) (count : Z) (r : bool) :
  limit (snd (TryAddBytes c count r)) = limit c.
Proof.
  destruct (TryAddBytes_cases c count r) as [[_ E]|[_ E]]; now rewrite E.
Qed.

Lemma TryAddBytes_value_in_range (c : cacheLimiter) (count : Z) (r : bool) :
  Int64.in_range (value (snd (TryAddBytes c count r))).
Proof.
  destruct (TryAddBytes_cases c count r) as [[_ E]|[_ E]]; rewrite E;
    cbn [snd value]; apply add_in_range.
Qed.

Lemma step_limit (c : cacheLimiter) (k : Call) : limit (snd (step c k)) = limit c.
Proof.
  destruct k as [count r|count]; simpl.
  - pose proof (TryAddBytes_limit c count r) as H.
    now destruct (TryAddBytes c count r).
  - reflexivity.
Qed.

Lemma run_limit (ks : list Call) :
  forall c, limit (snd (run c ks)) = limit c.
Proof.
  induction ks as [|k ks IH]; intros c; simpl; [reflexivity|].
  pose proof (step_limit c k) as Hs.
  destruct (step c k) as [ev c1]. simpl in Hs.
  specialize (IH c1). destruct (run c1 ks) as [evs c2]. simpl in *.
  congruence.
Qed.

(** ** binary32 rounding, arithmetically

    The executable IEEE-754 operations are related to [round_sig24]:
    shifting a significand right by [n] places and rounding on the
    (round, sticky) bits is [round_half_even _ n]. *)

Section Float32Facts.

Import Float32.

Lemma digits2_pos_bounds (p : positive) :
  2 ^ (Zpos (digits2_pos p) - 1) <= Zpos p < 2 ^ Zpos (digits2_pos p).
Proof.
  induction p as [p IH|p IH|]; cbn [digits2_pos].
  - rewrite Pos2Z.inj_succ.
    replace (Z.succ (Zpos (digits2_pos p)) - 1) with (Z.succ (Zpos (digits2_pos p) - 1)) by lia.
    rewrite !Z.pow_succ_r by lia. lia.
  - rewrite Pos2Z.inj_succ.
    replace (Z.succ (Zpos (digits2_pos p)) - 1) with (Z.succ (Zpos (digits2_pos p) - 1)) by lia.
    rewrite !Z.pow_succ_r by lia. lia.
  - cbn. lia.
Qed.

Lemma digits2_pos_log2 (p : positive) :
  Zpos (digits2_pos p) = Z.log2 (Zpos p) + 1.
Proof.
  pose proof (digits2_pos_bounds p) as H.
  assert (Z.log2 (Zpos p) = Zpos (digits2_pos p) - 1) as E.
  { apply Z.log2_unique; [lia|].
    now replace (Z.succ (Zpos (digits2_pos p) - 1)) with (Zpos (digits2_pos p)) by lia. }
  lia.
Qed.

Lemma shr_1_nonneg (m : Z) (r s : bool) :
  0 <= m ->
  shr_1 (Build_shr_record m r s) = Build_shr_record (m / 2) (Z.odd m) (r || s).
Proof.
  intros Hm. rewrite <- Z.div2_div.
  destruct m as [|p|p]; [reflexivity | | lia].
  destruct p; reflexivity.
Qed.

Lemma iter_pos_nat {A : Type} (f : A -> A) (p : positive) :
  forall x, iter_pos f p x = Nat.iter (Pos.to_nat p) f x.
Proof.
  induction p as [p IH|p IH|]; intros x; cbn [iter_pos].
  - rewrite !IH, Pos2Nat.inj_xI.
    replace (S (2 * Pos.to_nat p))%nat with (Pos.to_nat p + (Pos.to_nat p + 1))%nat by lia.
    rewrite !Nat.iter_add. reflexivity.
  - rewrite !IH, Pos2Nat.inj_xO.
    replace (2 * Pos.to_nat p)%nat with (Pos.to_nat p + Pos.to_nat p)%nat by lia.
    rewrite Nat.iter_add. reflexivity.
  - reflexivity.
Qed.

Lemma odd_mod2 (a : Z) : Z.odd a = (a mod 2 =? 1).
Proof. rewrite Zmod_odd. now destruct (Z.odd a). Qed.

Lemma mod_pow2_succ (m k : Z) :
  0 <= k ->
  m mod 2 ^ (k + 1) = m mod 2 ^ k + 2 ^ k * ((m / 2 ^ k) mod 2).
Proof.
  intros Hk. rewrite Z.pow_add_r, Z.pow_1_r by lia.
  apply Z.rem_mul_r; lia.
Qed.

Lemma shr_iter (m : Z) (k : nat) :
  0 <= m ->
  Nat.iter (S k) shr_1 (Build_shr_record m false false)
  = Build_shr_record (m / 2 ^ Z.of_nat (S k))
      ((m / 2 ^ Z.of_nat k) mod 2 =? 1)
      (negb (m mod 2 ^ Z.of_nat k =? 0)).
Proof.
  intros Hm. induction k as [|k IH].
  - cbn [Nat.iter nat_rect]. rewrite shr_1_nonneg by assumption.
    change (Z.of_nat 1) with 1. change (Z.of_nat 0) with 0.
    rewrite Z.pow_1_r, Z.pow_0_r, Z.div_1_r, Z.mod_1_r, odd_mod2.
    reflexivity.
  - change (Nat.iter (S (S k)) shr_1 ?x) with (shr_1 (Nat.iter (S k) shr_1 x)).
    rewrite IH, shr_1_nonneg by (apply Z.div_pos; lia).
    rewrite !Nat2Z.inj_succ, <- !Z.add_1_r.
    set (k' := Z.of_nat k). assert (0 <= k') as Hk by (subst k'; lia).
    f_equal.
    + rewrite Z.div_div by lia.
      now rewrite (Z.pow_add_r 2 (k' + 1) 1), Z.pow_1_r by lia.
    + apply odd_mod2.
    + rewrite (mod_pow2_succ m k') by lia.
      pose proof (Z.mod_pos_bound (m / 2 ^ k') 2 ltac:(lia)).
      pose proof (Z.mod_pos_bound m (2 ^ k') ltac:(lia)).
      assert (0 < 2 ^ k') by lia.
      destruct (Z.eqb_spec ((m / 2 ^ k') mod 2) 1) as [E1|E1];
        destruct (Z.eqb_spec (m mod 2 ^ k') 0) as [E2|E2];
        destruct (Z.eqb_spec (m mod 2 ^ k' + 2 ^ k' * ((m / 2 ^ k') mod 2)) 0) as [E3|E3];
        cbn [orb negb]; try reflexivity; exfalso; nia.
Qed.

Lemma round_after_shr (m : Z) (k : nat) :
  0 <= m ->
  let mrs := Nat.iter (S k) shr_1 (Build_shr_record m false false) in
  round_nearest_even (shr_m mrs) (loc_of_shr_record mrs)
  = round_half_even m (Z.of_nat (S k)).
Proof.
  intros Hm mrs. subst mrs. rewrite shr_iter by assumption.
  unfold round_half_even. cbn [shr_m].
  rewrite Nat2Z.inj_succ, <- Z.add_1_r.
  set (k' := Z.of_nat k). assert (0 <= k') as Hk by (subst k'; lia).
  rewrite (mod_pow2_succ m k') by lia.
  pose proof (Z.mod_pos_bound (m / 2 ^ k') 2 ltac:(lia)).
  pose proof (Z.mod_pos_bound m (2 ^ k') ltac:(lia)).
  assert (2 ^ (k' + 1) = 2 * 2 ^ k') as E by (rewrite Z.pow_add_r, Z.pow_1_r; lia).
  rewrite !E. clear E.
  destruct (Z.eqb_spec ((m / 2 ^ k') mod 2) 1) as [E1|E1];
    destruct (Z.eqb_spec (m mod 2 ^ k') 0) as [E2|E2];
    cbn [loc_of_shr_record negb round_nearest_even];
    destruct (Z.compare_spec (2 * (m mod 2 ^ k' + 2 ^ k' * ((m / 2 ^ k') mod 2))) (2 * 2 ^ k'));
    try reflexivity; exfalso; nia.
Qed.

Lemma fexp32 (x : Z) : fexp prec emax x = Z.max (x - 24) (-149).
Proof. reflexivity. Qed.

Lemma shr_fexp_id (m e : Z) (l : location) :
  Zdigits2 m <= 24 -> -149 <= e ->
  shr_fexp prec emax m e l = (shr_record_of_loc m l, e).
Proof.
  intros Hd He. unfold shr_fexp, shr. rewrite fexp32.
  destruct (Z.max (Zdigits2 m + e - 24) (-149) - e) eqn:E; try reflexivity.
  lia.
Qed.

Lemma shr_fexp_shift (p : positive) (e : Z) :
  24 < Zpos (digits2_pos p) -> -149 <= e ->
  shr_fexp prec emax (Zpos p) e loc_Exact
  = (Nat.iter (Z.to_nat (Zpos (digits2_pos p) - 24)) shr_1
       (Build_shr_record (Zpos p) false false),
     e + (Zpos (digits2_pos p) - 24)).
Proof.
  intros Hd He. unfold shr_fexp, shr. rewrite fexp32.
  cbn [Zdigits2 shr_record_of_loc].
  replace (Z.max (Zpos (digits2_pos p) + e - 24) (-149) - e)
    with (Zpos (digits2_pos p) - 24) by lia.
  destruct (Zpos (digits2_pos p) - 24) as [|n|n] eqn:E; try lia.
  now rewrite iter_pos_nat, Z2Nat.inj_pos.
Qed.

Lemma round_half_even_near (a n : Z) :
  0 <= n ->
  let q' := round_half_even a n in
  a / 2 ^ n <= q' <= a / 2 ^ n + 1 /\
  2 * (q' * 2 ^ n) <= 2 * a + 2 ^ n /\
  2 * a <= 2 * (q' * 2 ^ n) + 2 ^ n.
Proof.
  intros Hn q'. subst q'. unfold round_half_even.
  assert (0 < 2 ^ n) as Hp by lia.
  pose proof (Z.mod_pos_bound a (2 ^ n) Hp) as Hr.
  pose proof (Z.div_mod a (2 ^ n) ltac:(lia)) as Ha.
  destruct (Z.compare_spec (2 * (a mod 2 ^ n)) (2 ^ n));
    [destruct (Z.even (a / 2 ^ n))| |]; nia.
Qed.

Lemma Zdigits2_unique (z d : Z) :
  0 < d -> 2 ^ (d - 1) <= z < 2 ^ d -> Zdigits2 z = d.
Proof.
  intros Hd Hz.
  assert (0 < z) as Hpos by lia.
  destruct z as [|p|p]; try lia.
  cbn [Zdigits2]. rewrite digits2_pos_log2.
  rewrite (Z.log2_unique (Zpos p) (d - 1)); [lia | lia |].
  now replace (Z.succ (d - 1)) with d by lia.
Qed.

Lemma excess_bits_pos (p : positive) :
  excess_bits (Zpos p) = Zpos (digits2_pos p) - 24.
Proof. unfold excess_bits. cbn [Z.abs]. rewrite digits2_pos_log2. lia. Qed.

Lemma round_sig24_small (p : positive) :
  Zpos (digits2_pos p) <= 24 -> round_sig24 (Zpos p) = Zpos p.
Proof.
  intros H. unfold round_sig24. rewrite excess_bits_pos.
  destruct (Z.leb_spec (Zpos (digits2_pos p) - 24) 0); [reflexivity | lia].
Qed.

Lemma round_sig24_large (p : positive) :
  24 < Zpos (digits2_pos p) ->
  round_sig24 (Zpos p)
  = round_half_even (Zpos p) (Zpos (digits2_pos p) - 24)
    * 2 ^ (Zpos (digits2_pos p) - 24).
Proof.
  intros H. unfold round_sig24. rewrite excess_bits_pos.
  destruct (Z.leb_spec (Zpos (digits2_pos p) - 24) 0); [lia|].
  cbn [Z.sgn Z.abs]. lia.
Qed.

Lemma quotient_24_bits (p : positive) :
  24 < Zpos (digits2_pos p) ->
  2 ^ 23 <= Zpos p / 2 ^ (Zpos (digits2_pos p) - 24) < 2 ^ 24.
Proof.
  intros H. pose proof (digits2_pos_bounds p) as Hb.
  set (d := Zpos (digits2_pos p)) in *.
  assert (2 ^ (d - 1) = 2 ^ 23 * 2 ^ (d - 24)) as E1
    by (rewrite <- Z.pow_add_r by lia; f_equal; lia).
  assert (2 ^ d = 2 ^ 24 * 2 ^ (d - 24)) as E2
    by (rewrite <- Z.pow_add_r by lia; f_equal; lia).
  assert (0 < 2 ^ (d - 24)) by lia.
  split.
  - apply Z.div_le_lower_bound; lia.
  - apply Z.div_lt_upper_bound; lia.
Qed.

Lemma binary_round_aux_spec (s : bool) (p : positive) (e : Z) :
  -149 <= e -> e + Z.max 0 (excess_bits (Zpos p)) < 104 ->
  exists m' e',
    binary_round_aux prec emax s (Zpos p) e loc_Exact = S754_finite s m' e'
    /\ e <= e' <= e + Z.max 0 (excess_bits (Zpos p)) + 1
    /\ Zpos m' < 2 ^ 24
    /\ Zpos m' * 2 ^ (e' - e) = round_sig24 (Zpos p).
Proof.
  intros He Hmax. rewrite excess_bits_pos in *.
  unfold binary_round_aux.
  destruct (Z_le_gt_dec (Zpos (digits2_pos p)) 24) as [Hd|Hd].
  - rewrite shr_fexp_id by (cbn [Zdigits2]; lia).
    cbn [shr_record_of_loc shr_m loc_of_shr_record round_nearest_even].
    rewrite shr_fexp_id by (cbn [Zdigits2]; lia).
    cbn [shr_record_of_loc shr_m].
    change (emax - prec) with 104.
    destruct (Z.leb_spec e 104); [|lia].
    exists p, e. rewrite Z.sub_diag, round_sig24_small by lia.
    pose proof (digits2_pos_bounds p) as Hb.
    assert (2 ^ Zpos (digits2_pos p) <= 2 ^ 24)
      by (apply Z.pow_le_mono_r; lia).
    repeat split; lia.
  - rewrite shr_fexp_shift by lia.
    set (n := Zpos (digits2_pos p) - 24) in *.
    destruct (Z.to_nat n) as [|k] eqn:Ek; [lia|].
    pose proof (round_after_shr (Zpos p) k ltac:(lia)) as Hr.
    cbv zeta in Hr. rewrite Hr. clear Hr.
    replace (Z.of_nat (S k)) with n by lia.
    pose proof (round_half_even_near (Zpos p) n ltac:(lia)) as (Hq & _).
    pose proof (quotient_24_bits p ltac:(lia)) as Hq24. fold n in Hq24.
    rewrite round_sig24_large by lia. fold n.
    set (q' := round_half_even (Zpos p) n) in *.
    change (2 ^ 23) with 8388608 in *. change (2 ^ 24) with 16777216 in *.
    assert (q' < 16777216 \/ q' = 16777216) as [Hlt|Heq] by lia.
    + rewrite shr_fexp_id.
      2:{ rewrite (Zdigits2_unique q' 24); [lia | lia |].
          change (2 ^ (24 - 1)) with 8388608. change (2 ^ 24) with 16777216. lia. }
      2: lia.
      cbn [shr_record_of_loc shr_m].
      destruct q' as [|m'|m'] eqn:Eq'; try lia.
      change (emax - prec) with 104.
      destruct (Z.leb_spec (e + n) 104); [|lia].
      exists m', (e + n). replace (e + n - e) with n by lia.
      repeat split; lia.
    + rewrite Heq. unfold shr_fexp, shr. rewrite fexp32.
      change (Zdigits2 16777216) with 25.
      replace (Z.max (25 + (e + n) - 24) (-149) - (e + n)) with 1 by lia.
      cbn [shr_record_of_loc iter_pos shr_1 shr_m].
      change (emax - prec) with 104.
      destruct (Z.leb_spec (e + n + 1) 104); [|lia].
      exists 8388608%positive, (e + n + 1).
      replace (e + n + 1 - e) with (n + 1) by lia.
      rewrite Z.pow_add_r, Z.pow_1_r by lia.
      repeat split; lia.
Qed.

(** Rounding commutes with scaling by a power of two. *)

Lemma round_half_even_scale (a n j : Z) :
  0 <= n -> 0 <= j ->
  round_half_even (a * 2 ^ j) (n + j) = round_half_even a n.
Proof.
  intros Hn Hj. unfold round_half_even.
  assert (0 < 2 ^ n) by lia. assert (0 < 2 ^ j) by lia.
  rewrite Z.pow_add_r by lia.
  rewrite Z.div_mul_cancel_r, Z.mul_mod_distr_r by lia.
  replace (2 * (a mod 2 ^ n * 2 ^ j)) with (2 * (a mod 2 ^ n) * 2 ^ j) by lia.
  now rewrite <- Zmult_compare_compat_r by lia.
Qed.

Lemma round_half_even_exact (b n : Z) :
  0 <= n -> round_half_even (b * 2 ^ n) n = b.
Proof.
  intros Hn. unfold round_half_even.
  assert (0 < 2 ^ n) by lia.
  rewrite Z.div_mul, Z.mod_mul by lia.
  destruct (Z.compare_spec (2 * 0) (2 ^ n)); lia.
Qed.

Lemma excess_bits_scale (z j : Z) :
  0 < z -> 0 <= j -> excess_bits (z * 2 ^ j) = excess_bits z + j.
Proof.
  intros Hz Hj. unfold excess_bits.
  assert (0 < 2 ^ j) by lia.
  rewrite !Z.abs_eq by nia.
  rewrite Z.log2_mul_pow2 by lia. lia.
Qed.

Lemma round_sig24_scale (z j : Z) :
  0 < z -> 0 <= j -> round_sig24 (z * 2 ^ j) = round_sig24 z * 2 ^ j.
Proof.
  intros Hz Hj. unfold round_sig24.
  rewrite excess_bits_scale by assumption.
  assert (0 < 2 ^ j) by lia.
  assert (0 < z * 2 ^ j) by nia.
  rewrite !Z.abs_eq, !Z.sgn_pos by lia.
  set (n := excess_bits z).
  destruct (Z.leb_spec (n + j) 0) as [H1|H1];
    destruct (Z.leb_spec n 0) as [H2|H2]; try lia.
  - replace (z * 2 ^ j) with (z * 2 ^ (- n) * 2 ^ (n + j)).
    2:{ rewrite <- Z.mul_assoc, <- Z.pow_add_r by lia. do 2 f_equal. lia. }
    rewrite round_half_even_exact by lia. lia.
  - rewrite round_half_even_scale by lia.
    rewrite Z.pow_add_r by lia. lia.
Qed.

Lemma dyadic_trunc_scale (m e k : Z) :
  0 <= k -> dyadic_trunc (m * 2 ^ k) e = dyadic_trunc m (e + k).
Proof.
  intros Hk. unfold dyadic_trunc.
  assert (0 < 2 ^ k) by lia.
  destruct (Z.leb_spec 0 e) as [He|He];
    destruct (Z.leb_spec 0 (e + k)) as [Hek|Hek]; try lia.
  - rewrite Z.pow_add_r by lia. lia.
  - replace k with (e + k + - e) at 1 by lia.
    rewrite Z.pow_add_r by lia.
    now rewrite Z.mul_assoc, Z.div_mul by lia.
  - replace (- e) with (- (e + k) + k) by lia.
    rewrite Z.pow_add_r by lia.
    now rewrite Z.div_mul_cancel_r by lia.
Qed.

(** Relative error of rounding: at most [2^-24]. *)

Lemma round_sig24_upper (z : Z) :
  0 < z -> 2 ^ 24 * round_sig24 z <= (2 ^ 24 + 1) * z.
Proof.
  intros Hz. destruct z as [|p|p]; try lia.
  destruct (Z_le_gt_dec (Zpos (digits2_pos p)) 24) as [Hd|Hd].
  - rewrite round_sig24_small by assumption. lia.
  - rewrite round_sig24_large by lia.
    set (n := Zpos (digits2_pos p) - 24).
    pose proof (round_half_even_near (Zpos p) n ltac:(lia)) as (_ & Hu & _).
    pose proof (digits2_pos_bounds p) as (Hb & _).
    replace (Zpos (digits2_pos p) - 1) with (23 + n) in Hb by lia.
    rewrite Z.pow_add_r in Hb by lia.
    change (2 ^ 23) with 8388608 in Hb. change (2 ^ 24) with 16777216.
    lia.
Qed.

Lemma round_sig24_lower (z : Z) :
  0 < z -> (2 ^ 24 - 1) * z <= 2 ^ 24 * round_sig24 z.
Proof.
  intros Hz. destruct z as [|p|p]; try lia.
  destruct (Z_le_gt_dec (Zpos (digits2_pos p)) 24) as [Hd|Hd].
  - rewrite round_sig24_small by assumption. lia.
  - rewrite round_sig24_large by lia.
    set (n := Zpos (digits2_pos p) - 24).
    pose proof (round_half_even_near (Zpos p) n ltac:(lia)) as (_ & _ & Hl).
    pose proof (digits2_pos_bounds p) as (Hb & _).
    replace (Zpos (digits2_pos p) - 1) with (23 + n) in Hb by lia.
    rewrite Z.pow_add_r in Hb by lia.
    change (2 ^ 23) with 8388608 in Hb. change (2 ^ 24) with 16777216.
    lia.
Qed.

Lemma round_sig24_opp (z : Z) : round_sig24 (- z) = - round_sig24 z.
Proof.
  unfold round_sig24, excess_bits. rewrite Z.abs_opp, Z.sgn_opp.
  destruct (_ <=? 0); lia.
Qed.

Lemma round_sig24_0 : round_sig24 0 = 0.
Proof. reflexivity. Qed.

Lemma round_sig24_pos (z : Z) : 0 < z -> 0 < round_sig24 z.
Proof.
  intros Hz. pose proof (round_sig24_lower z Hz) as H.
  change (2 ^ 24) with 16777216 in H. lia.
Qed.

Lemma digits2_pos_le (p : positive) (k : Z) :
  0 <= k -> Zpos p < 2 ^ k -> Zpos (digits2_pos p) <= k.
Proof.
  intros Hk Hp. pose proof (digits2_pos_bounds p) as (Hb & _).
  assert (2 ^ (Zpos (digits2_pos p) - 1) < 2 ^ k) as Hlt by lia.
  apply Z.pow_lt_mono_r_iff in Hlt; lia.
Qed.

Lemma shift_pos_pow2 (d p : positive) :
  Zpos (Pos.iter xO p d) = Zpos p * 2 ^ Zpos d.
Proof.
  change (Pos.iter xO p d) with (shift_pos d p).
  rewrite shift_pos_correct, Z.pow_pos_fold. lia.
Qed.

(** The conversion of a nonzero integer of magnitude [p <= 2^63]: the
    result holds [round_sig24 p], written as [m1 * 2^e1]. *)
Lemma binary_round_int (s : bool) (p : positive) :
  Zpos p <= 2 ^ 63 ->
  exists m1 e1 a b,
    binary_round prec emax s p 0 = S754_finite s m1 e1
    /\ 0 <= a /\ 0 <= b <= 23 /\ e1 - a = - b /\ e1 <= 41
    /\ Zpos m1 < 2 ^ 24
    /\ Zpos m1 * 2 ^ a = round_sig24 (Zpos p) * 2 ^ b.
Proof.
  intros Hp.
  assert (Zpos (digits2_pos p) <= 64) as Hd64
    by (apply digits2_pos_le; [lia | change (2 ^ 64) with (2 * 2 ^ 63); lia]).
  unfold binary_round, shl_align. rewrite fexp32.
  replace (Z.max (Zpos (digits2_pos p) + 0 - 24) (-149) - 0)
    with (Zpos (digits2_pos p) - 24) by lia.
  replace (Z.max (Zpos (digits2_pos p) + 0 - 24) (-149))
    with (Zpos (digits2_pos p) - 24) by lia.
  destruct (Zpos (digits2_pos p) - 24) as [|n|n] eqn:En.
  - destruct (binary_round_aux_spec s p 0) as (m1 & e1 & E & He & Hm & Hv);
      [lia | rewrite excess_bits_pos; lia |].
    rewrite excess_bits_pos in He.
    exists m1, e1, e1, 0. rewrite Z.sub_0_r in Hv.
    repeat split; try assumption; lia.
  - destruct (binary_round_aux_spec s p 0) as (m1 & e1 & E & He & Hm & Hv);
      [lia | rewrite excess_bits_pos; lia |].
    rewrite excess_bits_pos in He.
    exists m1, e1, e1, 0. rewrite Z.sub_0_r in Hv.
    repeat split; try assumption; lia.
  - assert (excess_bits (Zpos (Pos.iter xO p n)) = 0) as Hex.
    { rewrite shift_pos_pow2, excess_bits_scale, excess_bits_pos by lia. lia. }
    destruct (binary_round_aux_spec s (Pos.iter xO p n) (Zneg n))
      as (m1 & e1 & E & He & Hm & Hv); [lia | rewrite Hex; lia |].
    rewrite Hex in He.
    rewrite shift_pos_pow2, round_sig24_scale in Hv by lia.
    exists m1, e1, (e1 - Zneg n), (Zpos n).
    repeat split; try assumption; lia.
Qed.

(** [float32(z)] holds [z] rounded to 24 significant bits. *)
Lemma of_int64_round_sig24 (z : Z) :
  Int64.in_range z -> truncate (of_int64 z) = Some (round_sig24 z).
Proof.
  intros Hr. destruct z as [|p|p]; [reflexivity| |].
  - assert (Zpos p <= 2 ^ 63) as Hp by (i64_unfold; lia).
    destruct (binary_round_int false p Hp)
      as (m1 & e1 & a & b & E & Ha & Hb & Hab & _ & _ & Hv).
    unfold of_int64, binary_normalize. rewrite E. cbn [truncate cond_Zopp].
    f_equal. replace e1 with (- b + a) by lia.
    rewrite <- dyadic_trunc_scale, Hv, dyadic_trunc_scale by lia.
    replace (- b + b) with 0 by lia. unfold dyadic_trunc. cbn. lia.
  - assert (Zpos p <= 2 ^ 63) as Hp by (i64_unfold; lia).
    destruct (binary_round_int true p Hp)
      as (m1 & e1 & a & b & E & Ha & Hb & Hab & _ & _ & Hv).
    unfold of_int64, binary_normalize. rewrite E. cbn [truncate cond_Zopp].
    f_equal. replace e1 with (- b + a) by lia.
    rewrite <- dyadic_trunc_scale, Hv, dyadic_trunc_scale by lia.
    replace (- b + b) with 0 by lia.
    change (Zneg p) with (- Zpos p). rewrite round_sig24_opp.
    unfold dyadic_trunc. cbn. lia.
Qed.

Lemma mul_finite (s1 s2 : bool) (m1 m2 : positive) (e1 e2 : Z) :
  mul (S754_finite s1 m1 e1) (S754_finite s2 m2 e2)
  = binary_round_aux prec emax (xorb s1 s2) (Zpos (m1 * m2)) (e1 + e2) loc_Exact.
Proof. reflexivity. Qed.

(** [float32(±p) * 0.75], truncated. *)
Lemma truncate_three_quarters (s : bool) (p : positive) :
  Zpos p <= 2 ^ 63 ->
  truncate (mul (binary_round prec emax s p 0) const_0_75)
  = Some (cond_Zopp s (round_sig24 (3 * round_sig24 (Zpos p)) / 4)).
Proof.
  intros Hp.
  destruct (binary_round_int s p Hp)
    as (m1 & e1 & a & b & E & Ha & Hb & Hab & He1 & Hm1 & Hv).
  rewrite E. unfold const_0_75. rewrite mul_finite, xorb_false_r.
  assert (Zpos (m1 * 12582912) < 2 ^ 48) as Hprod.
  { rewrite Pos2Z.inj_mul. change (2 ^ 48) with (2 ^ 24 * 16777216).
    change (2 ^ 24) with 16777216 in *. nia. }
  assert (Zpos (digits2_pos (m1 * 12582912)) <= 48) as Hd48
    by (apply digits2_pos_le; [lia | assumption]).
  destruct (binary_round_aux_spec s (m1 * 12582912) (e1 + -24))
    as (m2 & e2 & E2 & He2 & Hm2 & Hv2);
    [lia | rewrite excess_bits_pos; lia |].
  rewrite E2. cbn [truncate]. do 2 f_equal.
  pose proof (round_sig24_pos (Zpos p) ltac:(lia)) as HL.
  set (L := round_sig24 (Zpos p)) in *.
  (* the product's significand, as a multiple of [3 * m1] *)
  rewrite Pos2Z.inj_mul in Hv2.
  change (Zpos 12582912) with (3 * 2 ^ 22) in Hv2.
  replace (Zpos m1 * (3 * 2 ^ 22)) with (3 * Zpos m1 * 2 ^ 22) in Hv2 by lia.
  rewrite round_sig24_scale in Hv2 by lia.
  (* walk the exponent from [e2] down to [-2] *)
  replace e2 with (e1 + -24 + (e2 - (e1 + -24))) at 1 by lia.
  rewrite <- dyadic_trunc_scale, Hv2 by lia.
  rewrite dyadic_trunc_scale by lia.
  replace (e1 + -24 + 22) with (- b - 2 + a) by lia.
  rewrite <- dyadic_trunc_scale by lia.
  rewrite <- round_sig24_scale by lia.
  replace (3 * Zpos m1 * 2 ^ a) with (3 * L * 2 ^ b) by lia.
  rewrite round_sig24_scale by lia.
  rewrite dyadic_trunc_scale by lia.
  replace (- b - 2 + b) with (-2) by lia.
  reflexivity.
Qed.

Lemma three_quarters_bound (z : Z) :
  0 < z -> 0 <= round_sig24 (3 * round_sig24 z) / 4 < z.
Proof.
  intros Hz.
  pose proof (round_sig24_pos z Hz) as HL.
  pose proof (round_sig24_upper z Hz) as HLu.
  set (L := round_sig24 z) in *.
  pose proof (round_sig24_pos (3 * L) ltac:(lia)) as HR.
  pose proof (round_sig24_upper (3 * L) ltac:(lia)) as HRu.
  set (R := round_sig24 (3 * L)) in *.
  pose proof (Z.mul_div_le R 4 ltac:(lia)) as Hq.
  change (2 ^ 24) with 16777216 in *.
  split; [apply Z.div_pos; lia | lia].
Qed.

Lemma in_rangeb_true (z : Z) : Int64.in_range z -> Int64.in_rangeb z = true.
Proof.
  unfold Int64.in_range, Int64.in_rangeb. intros [H1 H2].
  apply andb_true_intro. split; now apply Z.leb_le.
Qed.

Lemma to_int64_truncate (f : float32) (z : Z) :
  truncate f = Some z -> Int64.in_range z -> to_int64 f = z.
Proof.
  intros E Hz. unfold to_int64. now rewrite E, in_rangeb_true.
Qed.

Lemma three_quarters_pos (p : positive) :
  three_quarters (Zpos p) = round_sig24 (3 * round_sig24 (Zpos p)) / 4.
Proof.
  unfold three_quarters. apply Z.quot_div_nonneg; [|lia].
  pose proof (round_sig24_pos (Zpos p) ltac:(lia)).
  pose proof (round_sig24_pos (3 * round_sig24 (Zpos p)) ltac:(lia)). lia.
Qed.

Lemma three_quarters_neg (p : positive) :
  three_quarters (Zneg p) = - (round_sig24 (3 * round_sig24 (Zpos p)) / 4).
Proof.
  unfold three_quarters.
  change (Zneg p) with (- Zpos p).
  rewrite round_sig24_opp, Z.mul_opp_r, round_sig24_opp, Z.quot_opp_l by lia.
  f_equal. apply three_quarters_pos.
Qed.

Lemma strictLimit_three_quarters (lim : Z) :
  Int64.in_range lim -> strictLimit lim = three_quarters lim.
Proof.
  intros Hr. unfold strictLimit.
  destruct lim as [|p|p].
  - reflexivity.
  - assert (Zpos p <= 2 ^ 63) as Hp by (i64_unfold; lia).
    pose proof (three_quarters_bound (Zpos p) ltac:(lia)) as Hb.
    rewrite three_quarters_pos.
    apply to_int64_truncate.
    + apply (truncate_three_quarters false p Hp).
    + i64_unfold. lia.
  - assert (Zpos p <= 2 ^ 63) as Hp by (i64_unfold; lia).
    pose proof (three_quarters_bound (Zpos p) ltac:(lia)) as Hb.
    rewrite three_quarters_neg.
    apply to_int64_truncate.
    + apply (truncate_three_quarters true p Hp).
    + i64_unfold. lia.
Qed.

Lemma strictLimit_lt (lim : Z) :
  0 < lim -> Int64.in_range lim -> 0 <= strictLimit lim < lim.
Proof.
  intros Hpos Hr. rewrite strictLimit_three_quarters by assumption.
  destruct lim as [|p|p]; try lia.
  rewrite three_quarters_pos. now apply three_quarters_bound.
Qed.

Lemma two_seconds :
  mul const_2 (of_int64 time_Second) = S754_finite false 15625000 7.
Proof. reflexivity. Qed.

Lemma bounded32 (m : positive) (e : Z) :
  bounded prec emax m e = true ->
  -149 <= e <= 104 /\ Zpos (digits2_pos m) <= 24.
Proof.
  unfold bounded, canonical_mantissa. rewrite fexp32.
  change (emax - prec) with 104.
  intros H. apply andb_prop in H as [H1 H2].
  apply Z.eqb_eq in H1. apply Z.leb_le in H2. lia.
Qed.

Lemma backoff_truncate (m : positive) (e : Z) :
  bounded prec emax m e = true ->
  Zpos (digits2_pos m) + e <= 0 ->
  exists z,
    truncate (mul (S754_finite false 15625000 7) (S754_finite false m e)) = Some z
    /\ 0 <= z < 2 * time_Second.
Proof.
  intros Hb Hlt. apply bounded32 in Hb as (He & Hd).
  pose proof (digits2_pos_bounds m) as (_ & Hm).
  set (d := Zpos (digits2_pos m)) in *.
  rewrite mul_finite. cbn [xorb].
  assert (Zpos (15625000 * m) < 2 ^ 48) as Hprod.
  { rewrite Pos2Z.inj_mul.
    assert (2 ^ d <= 2 ^ 24) by (apply Z.pow_le_mono_r; lia).
    change (2 ^ 48) with (16777216 * 2 ^ 24). lia. }
  assert (Zpos (digits2_pos (15625000 * m)) <= 48) as Hd48
    by (apply digits2_pos_le; [lia | assumption]).
  destruct (binary_round_aux_spec false (15625000 * m) (7 + e))
    as (m2 & e2 & E2 & He2 & Hm2 & Hv2);
    [lia | rewrite excess_bits_pos; lia |].
  rewrite E2. cbn [truncate cond_Zopp].
  eexists. split; [reflexivity|].
  replace e2 with (7 + e + (e2 - (7 + e))) by lia.
  rewrite <- dyadic_trunc_scale, Hv2 by lia.
  pose proof (round_sig24_pos (Zpos (15625000 * m)) ltac:(lia)) as HR.
  pose proof (round_sig24_upper (Zpos (15625000 * m)) ltac:(lia)) as HRu.
  set (R := round_sig24 (Zpos (15625000 * m))) in *.
  rewrite Pos2Z.inj_mul in HRu.
  set (k := - e). assert (d <= k) as Hdk by (subst k; lia).
  assert (0 < d) as Hd0 by (subst d; lia).
  assert (R < 15625000 * 2 ^ k) as HRk.
  { assert (2 ^ d <= 2 ^ 24) as H24 by (apply Z.pow_le_mono_r; lia).
    assert (2 ^ d <= 2 ^ k) as Hk by (apply Z.pow_le_mono_r; lia).
    change (2 ^ 24) with 16777216 in *. nia. }
  unfold dyadic_trunc, time_Second.
  destruct (Z.leb_spec 0 (7 + e)) as [H7|H7].
  - assert (2 ^ k * 2 ^ (7 + e) = 128) as Hpw
      by (rewrite <- Z.pow_add_r by lia; subst k;
          replace (- e + (7 + e)) with 7 by lia; reflexivity).
    assert (0 < 2 ^ (7 + e)) by lia.
    split; nia.
  - replace (- (7 + e)) with (k - 7) by (subst k; lia).
    assert (2 ^ k = 128 * 2 ^ (k - 7)) as Hpw
      by (change 128 with (2 ^ 7); rewrite <- Z.pow_add_r by lia; f_equal; lia).
    assert (0 < 2 ^ (k - 7)) by lia.
    split.
    + apply Z.div_pos; lia.
    + apply Z.div_lt_upper_bound; lia.
Qed.

Lemma backoff_bounds (r : float32) :
  in_unit_interval r -> 0 <= backoff r < 2 * time_Second.
Proof.
  intros Hr. unfold backoff. rewrite two_seconds.
  destruct r as [s|s| |s m e]; cbn [in_unit_interval] in Hr; try contradiction.
  - cbn. unfold time_Second. lia.
  - destruct Hr as (-> & Hb & Hlt).
    destruct (backoff_truncate m e Hb Hlt) as (z & E & Hz).
    rewrite (to_int64_truncate _ z E); [assumption|].
    unfold time_Second in Hz. i64_unfold. lia.
Qed.

End Float32Facts.

(** ** The non-blocking add *)

Ltac in_range_by_computation :=
  unfold Int64.in_range; vm_compute; split; discriminate.

(** C1.  For every limiter state, count and flag, [TryAddBytes] returns
    [true] exactly when the counter after the atomic add ([int64] sum of
    the old value and [count]) is at or below the effective threshold,
    which is [limit] under the relaxed limit and the strict ceiling
    [int64(float32(limit) * 0.75)] otherwise; in that case the limiter is
    left holding the incremented counter, and when the sum is above the
    threshold the call returns [false].  Whenever the mathematical sum
    fits [int64], the sum compared and stored is that sum exactly. *)
Theorem TryAddBytes_adds_iff_within_threshold
  (c : cacheLimiter) (count : Z) (useRelaxed : bool) :
  let after := Int64.add (value c) count in
  let threshold := if useRelaxed then limit c else strictLimit (limit c) in
  (fst (TryAddBytes c count useRelaxed) = true <-> after <= threshold) /\
  (after <= threshold ->
   TryAddBytes c count useRelaxed
   = (true, {| value := after; limit := limit c |})) /\
  (threshold < after -> fst (TryAddBytes c count useRelaxed) = false) /\
  (Int64.in_range (value c + count) -> after = value c + count).
Proof.
  intros after threshold.
  assert (effectiveLimit c useRelaxed = threshold) as Et
    by (subst threshold; now destruct useRelaxed).
  pose proof (TryAddBytes_cases c count useRelaxed) as Hc.
  rewrite Et in Hc. fold after in Hc.
  repeat split.
  - destruct Hc as [[H _]|[H E]]; [trivial|].
    rewrite E. discriminate.
  - intros H. destruct Hc as [[_ E]|[H' _]]; [now rewrite E | lia].
  - intros H. destruct Hc as [[_ E]|[H' _]]; [exact E | lia].
  - intros H. destruct Hc as [[H' _]|[_ E]]; [lia | now rewrite E].
  - apply add_exact.
Qed.

(** C2.  A call of [TryAddBytes] that returns [false] leaves the limiter
    exactly as it found it: the optimistic add followed by the add of
    [-count] restores the counter, whatever [count] is. *)
Theorem TryAddBytes_false_restores_counter
  (c : cacheLimiter) (count : Z) (useRelaxed : bool) :
  Int64.in_range (value c) ->
  fst (TryAddBytes c count useRelaxed) = false ->
  snd (TryAddBytes c count useRelaxed) = c
  /\ Int64.add (Int64.add (value c) count) (Int64.neg count) = value c.
Proof.
  intros Hv Hf. split; [|now apply add_neg_cancel].
  destruct (TryAddBytes_cases c count useRelaxed) as [[_ E]|[_ E]];
    rewrite E in *; [discriminate|].
  cbn [snd]. rewrite add_neg_cancel by assumption.
  apply cacheLimiter_eta.
Qed.

Lemma TryAddBytes_false_restores_counter_witness :
  snd (TryAddBytes {| value := 10; limit := 10 |} 1 false)
  = {| value := 10; limit := 10 |}
  /\ Int64.add (Int64.add 10 1) (Int64.neg 1) = 10.
Proof.
  apply (TryAddBytes_false_restores_counter {| value := 10; limit := 10 |} 1 false).
  - in_range_by_computation.
  - reflexivity.
Defined.

(** ** Histories *)

Lemma run_counter (ks : list Call) :
  forall c,
    Int64.in_range (value c) ->
    value (snd (run c ks))
    = Int64.wrap (value c + committed (fst (run c ks)) - removed (fst (run c ks))).
Proof.
  induction ks as [|k ks IH]; intros c Hc; cbn [run].
  - cbn. rewrite Z.add_0_r, Z.sub_0_r. symmetry. now apply wrap_small.
  - destruct k as [count r|count]; cbn [step].
    + destruct (TryAddBytes_cases c count r) as [[_ E]|[_ E]]; rewrite E.
      * specialize (IH {| value := Int64.add (value c) count; limit := limit c |}
                      (add_in_range _ _)).
        destruct (run _ ks) as [evs c2]. cbn [fst snd value committed removed] in *.
        rewrite IH. unfold Int64.add.
        rewrite <- Z.add_sub_assoc, wrap_add_l. f_equal. lia.
      * rewrite add_neg_cancel by assumption.
        specialize (IH {| value := value c; limit := limit c |} Hc).
        destruct (run _ ks) as [evs c2]. cbn [fst snd value committed removed] in *.
        exact IH.
    + specialize (IH (RemoveBytes c count)).
      rewrite RemoveBytes_value in IH. specialize (IH (wrap_in_range _)).
      destruct (run _ ks) as [evs c2]. cbn [fst snd value committed removed] in *.
      rewrite IH.
      rewrite <- Z.add_sub_assoc, wrap_add_l. f_equal. lia.
Qed.

(** C3.  After any finite sequence of [TryAddBytes] and [RemoveBytes] calls
    on a freshly constructed limiter, the counter is the sum of the counts
    of the [TryAddBytes] calls that returned [true] minus the sum of the
    [RemoveBytes] counts, as an [int64] (the sum reduced to two's
    complement; it is the sum itself when that fits).  Calls that returned
    [false] do not enter the sum. *)
Theorem counter_is_committed_minus_removed (limit0 : Z) (ks : list Call) :
  let history := fst (run (NewCacheLimiter limit0) ks) in
  let c := snd (run (NewCacheLimiter limit0) ks) in
  value c = Int64.wrap (committed history - removed history)
  /\ (Int64.in_range (committed history - removed history) ->
      value c = committed history - removed history).
Proof.
  intros history c.
  assert (value c = Int64.wrap (committed history - removed history)) as E.
  { subst c history. rewrite run_counter by (cbn; in_range_by_computation).
    reflexivity. }
  split; [exact E|]. intros H. rewrite E. now apply wrap_small.
Qed.

(** The sequential example of the specification: limit 100, relaxed. *)
Example sequential_example :
  run (NewCacheLimiter 100)
    [CallTryAddBytes 100 true; CallTryAddBytes 1 true;
     CallRemoveBytes 50; CallTryAddBytes 50 true]
  = ([EvTryAddBytes 100 true true; EvTryAddBytes 1 true false;
      EvRemoveBytes 50; EvTryAddBytes 50 true true],
     {| value := 100; limit := 100 |}).
Proof. reflexivity. Qed.

(** Ten strict requests of 15 bytes against limit 100, one after the
    other: five are admitted and the counter settles at 75. *)
Example ten_strict_requests :
  let '(history, c) :=
    run (NewCacheLimiter 100) (repeat (CallTryAddBytes 15 false) 10) in
  committed history = 75 /\ value c = 75 /\ strictLimit 100 = 75.
Proof. vm_compute. repeat split. Qed.

(** Conversions and ceilings at some telling values: ties go to the even
    significand; the largest [int64] rounds up to [2^63] as a float, which
    no longer converts back; a negative limit has its strict ceiling above
    it. *)
Example float32_conversions :
  Float32.truncate (Float32.of_int64 16777217) = Some 16777216
  /\ Float32.truncate (Float32.of_int64 16777219) = Some 16777220
  /\ Float32.truncate (Float32.of_int64 Int64.max_int64) = Some (2 ^ 63)
  /\ Float32.to_int64 (Float32.of_int64 Int64.max_int64) = Int64.min_int64.
Proof. repeat split. Qed.

Example strictLimit_values :
  strictLimit 10 = 7 /\ strictLimit 100 = 75 /\ strictLimit 0 = 0
  /\ strictLimit 1 = 0 /\ strictLimit (-4) = -3
  /\ strictLimit Int64.max_int64 = 3 * 2 ^ 61.
Proof. repeat split. Qed.

(** A strict ceiling that lies above the exact three quarters: the
    product [8388609.75] rounds up to the next binary32 number. *)
Example strictLimit_rounds_up : strictLimit 11184813 = 8388610.
Proof. reflexivity. Qed.

(** ** Thresholds *)

(** Up to [2^22] in magnitude nothing is rounded: the strict ceiling is
    the integer part of [3 * limit / 4]. *)
Lemma three_quarters_small (lim : Z) :
  Z.abs lim < 2 ^ 22 -> Float32.three_quarters lim = Z.quot (3 * lim) 4.
Proof.
  intros H. unfold Float32.three_quarters.
  assert (forall p, Zpos p < 2 ^ 24 -> Float32.round_sig24 (Zpos p) = Zpos p) as Hs.
  { intros p Hp. apply round_sig24_small. apply digits2_pos_le; [lia | exact Hp]. }
  change (2 ^ 22) with 4194304 in H. change (2 ^ 24) with 16777216 in Hs.
  destruct lim as [|p|p].
  - reflexivity.
  - rewrite (Hs p) by lia. change (3 * Zpos p) with (Zpos (3 * p)).
    rewrite Hs by lia. reflexivity.
  - change (Zneg p) with (- Zpos p).
    rewrite round_sig24_opp, (Hs p) by lia.
    change (3 * - Zpos p) with (- Zpos (3 * p)).
    rewrite round_sig24_opp, Hs by lia. reflexivity.
Qed.

(** C5.  For every [int64] limit, the ceiling [TryAddBytes] uses in strict
    mode is [0.75 * limit] under the floating-point truncation rule (the
    limit rounded to binary32, multiplied by 0.75 in binary32, truncated
    toward zero), here characterised arithmetically by
    [Float32.three_quarters], and the ceiling it uses in relaxed mode is
    [limit] itself: a strict call is admitted exactly when the counter
    after the add does not exceed the former, a relaxed call exactly when
    it does not exceed the latter. *)
Theorem strict_and_relaxed_ceilings (c : cacheLimiter) (count : Z) :
  Int64.in_range (limit c) ->
  effectiveLimit c false = Float32.three_quarters (limit c)
  /\ effectiveLimit c true = limit c
  /\ fst (TryAddBytes c count false)
     = (Int64.add (value c) count <=? Float32.three_quarters (limit c))
  /\ fst (TryAddBytes c count true)
     = (Int64.add (value c) count <=? limit c).
Proof.
  intros Hl.
  assert (effectiveLimit c false = Float32.three_quarters (limit c)) as Es
    by now apply strictLimit_three_quarters.
  repeat split.
  - exact Es.
  - rewrite <- Es. unfold TryAddBytes, AddInt64.
    now destruct (_ <=? _).
  - unfold TryAddBytes, AddInt64.
    change (effectiveLimit c true) with (limit c).
    now destruct (_ <=? _).
Qed.

Lemma strict_and_relaxed_ceilings_witness :
  effectiveLimit (NewCacheLimiter 11184813) false
  = Float32.three_quarters (limit (NewCacheLimiter 11184813))
  /\ effectiveLimit (NewCacheLimiter 11184813) true
     = limit (NewCacheLimiter 11184813)
  /\ fst (TryAddBytes (NewCacheLimiter 11184813) 8388610 false)
     = (Int64.add (value (NewCacheLimiter 11184813)) 8388610
        <=? Float32.three_quarters (limit (NewCacheLimiter 11184813)))
  /\ fst (TryAddBytes (NewCacheLimiter 11184813) 8388610 true)
     = (Int64.add (value (NewCacheLimiter 11184813)) 8388610
        <=? limit (NewCacheLimiter 11184813)).
Proof.
  apply (strict_and_relaxed_ceilings (NewCacheLimiter 11184813) 8388610).
  in_range_by_computation.
Defined.

(** C6.  For every limiter constructed with a positive limit, the relaxed
    threshold is strictly greater than the strict threshold computed by
    [TryAddBytes] (which is itself non-negative). *)
Theorem strict_threshold_below_relaxed (limit0 : Z) :
  0 < limit0 -> Int64.in_range limit0 ->
  0 <= effectiveLimit (NewCacheLimiter limit0) false
    < effectiveLimit (NewCacheLimiter limit0) true.
Proof.
  intros Hpos Hr. unfold effectiveLimit. cbn [limit NewCacheLimiter negb].
  now apply strictLimit_lt.
Qed.

Lemma strict_threshold_below_relaxed_witness :
  0 <= effectiveLimit (NewCacheLimiter 1) false
    < effectiveLimit (NewCacheLimiter 1) true.
Proof.
  apply (strict_threshold_below_relaxed 1).
  - reflexivity.
  - in_range_by_computation.
Defined.

(** ** Negative counts *)

(** C7, as stated, fails: after a relaxed request has filled the limiter
    (counter 100, limit 100), a strict request with count [-1] would leave
    the counter at 99, above the strict ceiling 75, so it is rolled back
    and refused, while [RemoveBytes 1] brings the counter to 99. *)
Lemma negative_count_refused :
  let c := snd (TryAddBytes (NewCacheLimiter 100) 100 true) in
  c = {| value := 100; limit := 100 |}
  /\ TryAddBytes c (-1) false = (false, c)
  /\ value (RemoveBytes c 1) = 99.
Proof. vm_compute. repeat split. Qed.

(** C7, amended.  For every limiter state, every negative count and either
    flag, [TryAddBytes] behaves as a release exactly when the counter after
    adding the count is at or below the effective threshold, as it is
    whenever the counter was at or below it before the call and the
    subtraction does not underflow: the call then commits and returns
    [true], leaving the limiter as [RemoveBytes] of the negated count would
    (the negated count is [|count|] unless [count] is the least [int64],
    and the counter has decreased by [|count|] unless the subtraction
    underflows).  Otherwise the call returns [false] and the limiter is
    unchanged. *)
Theorem negative_count_releases
  (c : cacheLimiter) (count : Z) (useRelaxed : bool) :
  Int64.in_range (value c) -> Int64.in_range count -> count < 0 ->
  let threshold := effectiveLimit c useRelaxed in
  (Int64.add (value c) count <= threshold ->
   TryAddBytes c count useRelaxed = (true, RemoveBytes c (Int64.neg count))
   /\ (Int64.min_int64 < count -> Int64.neg count = Z.abs count)
   /\ (Int64.min_int64 <= value c + count ->
       value (RemoveBytes c (Int64.neg count)) = value c - Z.abs count))
  /\ (value c <= threshold -> Int64.min_int64 <= value c + count ->
      Int64.add (value c) count <= threshold)
  /\ (threshold < Int64.add (value c) count ->
      TryAddBytes c count useRelaxed = (false, c)).
Proof.
  intros Hv Hc Hneg threshold.
  pose proof (neg_involutive count Hc) as Hnn.
  split; [|split].
  - intros Hle.
    rewrite (TryAddBytes_success c count useRelaxed Hle).
    assert (RemoveBytes c (Int64.neg count)
            = {| value := Int64.add (value c) count; limit := limit c |}) as Er
      by (unfold RemoveBytes, AddInt64; cbn [snd]; now rewrite Hnn).
    rewrite Er. repeat split.
    + intros Hmin. rewrite neg_exact by (i64_unfold; lia). lia.
    + intros Hlow. cbn [value].
      rewrite add_exact by (i64_unfold; lia). lia.
  - intros Hle Hlow. rewrite add_exact by (i64_unfold; lia). lia.
  - intros Hgt.
    rewrite (TryAddBytes_failure c count useRelaxed Hgt).
    now rewrite add_neg_cancel, cacheLimiter_eta by assumption.
Qed.

Lemma negative_count_releases_witness :
  let c := {| value := 60; limit := 100 |} in
  let threshold := effectiveLimit c false in
  (Int64.add (value c) (-10) <= threshold ->
   TryAddBytes c (-10) false = (true, RemoveBytes c (Int64.neg (-10)))
   /\ (Int64.min_int64 < -10 -> Int64.neg (-10) = Z.abs (-10))
   /\ (Int64.min_int64 <= value c + -10 ->
       value (RemoveBytes c (Int64.neg (-10))) = value c - Z.abs (-10)))
  /\ (value c <= threshold -> Int64.min_int64 <= value c + -10 ->
      Int64.add (value c) (-10) <= threshold)
  /\ (threshold < Int64.add (value c) (-10) ->
      TryAddBytes c (-10) false = (false, c)).
Proof.
  apply (negative_count_releases {| value := 60; limit := 100 |} (-10) false).
  - in_range_by_computation.
  - in_range_by_computation.
  - reflexivity.
Defined.

(** The release branch of the witness is the live one: 50 is within the
    strict ceiling 75. *)
Example negative_count_released :
  TryAddBytes {| value := 60; limit := 100 |} (-10) false
  = (true, {| value := 50; limit := 100 |}).
Proof. reflexivity. Qed.

(** ** The blocking add *)

Section WaitFacts.

Context {error : Type}.
Variable ctx : Context error.
Variable count : Z.

Lemma WaitUntilAddBytes_cons (c : cacheLimiter) (t : Tick) (sched : list Tick) :
  WaitUntilAddBytes ctx c count (t :: sched)
  = if fst (TryAddBytes c count (useRelaxedLimit t)) then
      {| outcome := Returned None; attempts := [true]; delays := [];
         final := snd (TryAddBytes c count (useRelaxedLimit t)) |}
    else
      let c2 := snd (run (snd (TryAddBytes c count (useRelaxedLimit t)))
                       (others t)) in
      if doneFirst t then
        {| outcome := Returned (Some (Err ctx)); attempts := [false];
           delays := [backoff (draw t)]; final := c2 |}
      else
        let r := WaitUntilAddBytes ctx c2 count sched in
        {| outcome := outcome r; attempts := false :: attempts r;
           delays := backoff (draw t) :: delays r; final := final r |}.
Proof.
  cbn [WaitUntilAddBytes].
  now destruct (TryAddBytes c count (useRelaxedLimit t)) as [[|] c1].
Qed.

(** The attempts made are failures, closed by one success exactly when
    the call returns [nil]. *)
Lemma WaitUntilAddBytes_attempts (sched : list Tick) :
  forall c,
    let r := WaitUntilAddBytes ctx c count sched in
    match outcome r with
    | Returned None => exists n, attempts r = repeat false n ++ [true]
    | Returned (Some e) => e = Err ctx /\ exists n, attempts r = repeat false (S n)
    | Blocked => attempts r = repeat false (length sched)
    end.
Proof.
  induction sched as [|t sched IH]; intros c; [reflexivity|].
  cbv zeta. rewrite WaitUntilAddBytes_cons.
  destruct (fst (TryAddBytes c count (useRelaxedLimit t))).
  - cbn. now exists 0%nat.
  - cbv zeta. destruct (doneFirst t).
    + cbn. split; [reflexivity | now exists 0%nat].
    + specialize (IH (snd (run (snd (TryAddBytes c count (useRelaxedLimit t)))
                             (others t)))).
      cbv zeta in IH. cbn [outcome attempts].
      destruct (outcome (WaitUntilAddBytes ctx _ count sched)) as [[e|]|].
      * destruct IH as (-> & n & ->). split; [reflexivity | now exists (S n)].
      * destruct IH as (n & ->). now exists (S n).
      * now rewrite IH.
Qed.

Lemma repeat_false_no_true (n : nat) : ~ In true (repeat false n).
Proof. intros H. apply repeat_spec in H. discriminate. Qed.

(** Without interference, the limiter ends with [count] added when the
    call returns [nil] and untouched otherwise. *)
Lemma WaitUntilAddBytes_alone (sched : list Tick) :
  forall c,
    Forall (fun t => others t = []) sched ->
    Int64.in_range (value c) ->
    let r := WaitUntilAddBytes ctx c count sched in
    match outcome r with
    | Returned None =>
        final r = {| value := Int64.add (value c) count; limit := limit c |}
    | _ => final r = c
    end.
Proof.
  induction sched as [|t sched IH]; intros c Hq Hv; [reflexivity|].
  cbv zeta. rewrite WaitUntilAddBytes_cons.
  apply Forall_cons_iff in Hq as [Ht Hq]. rewrite Ht.
  destruct (TryAddBytes_cases c count (useRelaxedLimit t)) as [[_ E]|[_ E]];
    rewrite E; cbn [fst snd run].
  - reflexivity.
  - rewrite add_neg_cancel, cacheLimiter_eta by assumption.
    destruct (doneFirst t); [reflexivity|].
    cbn [outcome final]. now apply IH.
Qed.

Lemma strictLimit_le (lim : Z) :
  0 <= lim -> Int64.in_range lim -> strictLimit lim <= lim.
Proof.
  intros H0 Hr. destruct (Z.eq_dec lim 0) as [->|Hne]; [discriminate|].
  pose proof (strictLimit_lt lim ltac:(lia) Hr). lia.
Qed.

(** A full limiter, a strict request for one more byte, and a context
    that is done: one failed attempt, then the context's error. *)
Lemma WaitUntilAddBytes_full_cancelled
  (c : cacheLimiter) (t : Tick) (rest : list Tick) :
  useRelaxedLimit t = false -> doneFirst t = true -> others t = [] ->
  0 <= limit c < Int64.max_int64 -> value c = limit c ->
  WaitUntilAddBytes ctx c 1 (t :: rest)
  = {| outcome := Returned (Some (Err ctx)); attempts := [false];
       delays := [backoff (draw t)]; final := c |}.
Proof.
  intros Hs Hd Ho Hl Hv.
  assert (Int64.in_range (limit c)) as Hr by (i64_unfold; lia).
  assert (Int64.add (value c) 1 = limit c + 1) as Ea
    by (rewrite Hv; apply add_exact; i64_unfold; lia).
  pose proof (strictLimit_le (limit c) ltac:(lia) Hr) as Hsl.
  cbn [WaitUntilAddBytes]. rewrite Hs, Hd, Ho.
  rewrite TryAddBytes_failure by (cbn [effectiveLimit negb]; lia).
  rewrite add_neg_cancel by (rewrite Hv; exact Hr).
  cbn [run snd]. now rewrite cacheLimiter_eta.
Qed.

Lemma WaitUntilAddBytes_limit (sched : list Tick) :
  forall c, limit (final (WaitUntilAddBytes ctx c count sched)) = limit c.
Proof.
  induction sched as [|t sched IH]; intros c; [reflexivity|].
  rewrite WaitUntilAddBytes_cons.
  destruct (fst (TryAddBytes c count (useRelaxedLimit t))).
  - apply TryAddBytes_limit.
  - cbv zeta. destruct (doneFirst t); cbn [final].
    + now rewrite run_limit, TryAddBytes_limit.
    + now rewrite IH, run_limit, TryAddBytes_limit.
Qed.

(** Every duration handed to [time.After] is a [backoff] of a draw. *)
Lemma WaitUntilAddBytes_delays (sched : list Tick) :
  forall c,
    Forall (fun t => Float32.in_unit_interval (draw t)) sched ->
    Forall (fun d => 0 <= d < 2 * time_Second)
      (delays (WaitUntilAddBytes ctx c count sched)).
Proof.
  induction sched as [|t sched IH]; intros c Hq; [constructor|].
  rewrite WaitUntilAddBytes_cons.
  apply Forall_cons_iff in Hq as [Ht Hq].
  destruct (fst (TryAddBytes c count (useRelaxedLimit t))); [constructor|].
  cbv zeta. destruct (doneFirst t); cbn [delays].
  - constructor; [now apply backoff_bounds | constructor].
  - constructor; [now apply backoff_bounds | now apply IH].
Qed.

End WaitFacts.

Lemma run_app (ks1 ks2 : list Call) :
  forall c, snd (run c (ks1 ++ ks2)) = snd (run (snd (run c ks1)) ks2).
Proof.
  induction ks1 as [|k ks1 IH]; intros c; [reflexivity|].
  cbn [app run]. destruct (step c k) as [ev c1].
  specialize (IH c1).
  destruct (run c1 (ks1 ++ ks2)) as [evs c2].
  destruct (run c1 ks1) as [evs1 c3]. cbn [snd] in *. exact IH.
Qed.

Lemma run_in_range (ks : list Call) :
  forall c, Int64.in_range (value c) -> Int64.in_range (value (snd (run c ks))).
Proof.
  induction ks as [|k ks IH]; intros c Hv; [exact Hv|].
  cbn [run].
  assert (Int64.in_range (value (snd (step c k)))) as Hs.
  { destruct k as [count r|count]; cbn [step].
    - pose proof (TryAddBytes_value_in_range c count r).
      now destruct (TryAddBytes c count r).
    - cbn [snd]. rewrite RemoveBytes_value. apply wrap_in_range. }
  destruct (step c k) as [ev c1]. specialize (IH c1 Hs).
  now destruct (run c1 ks).
Qed.

Lemma limiter_at_pass_0 (c : cacheLimiter) (sched : list Tick) :
  limiter_at_pass c sched 0 = c.
Proof. reflexivity. Qed.

Lemma limiter_at_pass_S (c : cacheLimiter) (t : Tick) (sched : list Tick) (i : nat) :
  limiter_at_pass c (t :: sched) (S i)
  = limiter_at_pass (snd (run c (others t))) sched i.
Proof.
  unfold limiter_at_pass. cbn [firstn flat_map]. apply run_app.
Qed.

Lemma reaches_pass_S (c : cacheLimiter) (count : Z) (t : Tick)
  (sched : list Tick) (i : nat) :
  reaches_pass c count (t :: sched) (S i)
  <-> (fst (TryAddBytes c count (useRelaxedLimit t)) = false
       /\ doneFirst t = false)
      /\ reaches_pass (snd (run c (others t))) count sched i.
Proof.
  unfold reaches_pass, attempt_at. split.
  - intros H. split.
    + apply (H 0%nat t); [lia | reflexivity].
    + intros j t' Hj En. rewrite <- limiter_at_pass_S.
      apply (H (S j) t'); [lia | exact En].
  - intros [H0 H] [|j] t' Hj En.
    + cbn in En. injection En as <-. exact H0.
    + rewrite limiter_at_pass_S. apply H; [lia | exact En].
Qed.

Section WaitSpec.

Context {error : Type}.
Variable ctx : Context error.
Variable count : Z.

(** Every run of the loop is decided at one pass, or reaches the end of
    the schedule. *)
Lemma WaitUntilAddBytes_decided (sched : list Tick) :
  forall c,
    Int64.in_range (value c) ->
    let r := WaitUntilAddBytes ctx c count sched in
    (exists i t,
        nth_error sched i = Some t /\ reaches_pass c count sched i
        /\ attempt_at c count sched i t = true
        /\ outcome r = Returned None
        /\ attempts r = repeat false i ++ [true]
        /\ final r = snd (TryAddBytes (limiter_at_pass c sched i) count
                            (useRelaxedLimit t)))
    \/ (exists i t,
           nth_error sched i = Some t /\ reaches_pass c count sched i
           /\ attempt_at c count sched i t = false /\ doneFirst t = true
           /\ outcome r = Returned (Some (Err ctx))
           /\ attempts r = repeat false (S i)
           /\ final r = limiter_at_pass c sched (S i))
    \/ (reaches_pass c count sched (length sched)
        /\ outcome r = Blocked
        /\ attempts r = repeat false (length sched)
        /\ final r = limiter_at_pass c sched (length sched)).
Proof.
  induction sched as [|t sched IH]; intros c Hv r; subst r.
  - right. right. split; [intros j t Hj; cbn in Hj; lia|]. repeat split.
  - rewrite WaitUntilAddBytes_cons.
    destruct (fst (TryAddBytes c count (useRelaxedLimit t))) eqn:Et.
    + left. exists 0%nat, t. split; [reflexivity|].
      split; [intros j t' Hj; lia|].
      unfold attempt_at. rewrite limiter_at_pass_0, Et.
      split; [reflexivity|]. split; [reflexivity|]. split; reflexivity.
    + assert (snd (TryAddBytes c count (useRelaxedLimit t)) = c) as Ec.
      { destruct (TryAddBytes_cases c count (useRelaxedLimit t)) as [[_ E]|[_ E]];
          rewrite E in *; [discriminate|].
        cbn [snd]. rewrite add_neg_cancel by assumption.
        apply cacheLimiter_eta. }
      rewrite Ec. cbv zeta.
      destruct (doneFirst t) eqn:Ed.
      * right. left. exists 0%nat, t. split; [reflexivity|].
        split; [intros j t' Hj; lia|].
        unfold attempt_at. rewrite limiter_at_pass_0, Et.
        rewrite limiter_at_pass_S, limiter_at_pass_0.
        split; [reflexivity|]. split; [exact Ed|].
        split; [reflexivity|]. split; reflexivity.
      * specialize (IH (snd (run c (others t))) (run_in_range _ c Hv)).
        cbv zeta in IH.
        set (c1 := snd (run c (others t))) in *.
        assert (forall i, reaches_pass c1 count sched i ->
                          reaches_pass c count (t :: sched) (S i)) as Hup.
        { intros i Hi. apply reaches_pass_S. split; [split; assumption | exact Hi]. }
        destruct IH as [(i & t' & En & Hr & Ha & Ho & Hat & Hf)
                       |[(i & t' & En & Hr & Ha & Hd & Ho & Hat & Hf)
                        |(Hr & Ho & Hat & Hf)]].
        -- left. exists (S i), t'. cbn [outcome attempts final nth_error].
           unfold attempt_at in *. rewrite limiter_at_pass_S.
           split; [exact En|]. split; [now apply Hup|]. split; [exact Ha|].
           split; [exact Ho|]. split; [now rewrite Hat | exact Hf].
        -- right. left. exists (S i), t'. cbn [outcome attempts final nth_error].
           unfold attempt_at in *. rewrite !limiter_at_pass_S.
           split; [exact En|]. split; [now apply Hup|]. split; [exact Ha|].
           split; [exact Hd|].
           split; [exact Ho|]. split; [now rewrite Hat | exact Hf].
        -- right. right. cbn [outcome attempts final length].
           rewrite limiter_at_pass_S.
           split; [now apply Hup|].
           split; [exact Ho|]. split; [now rewrite Hat | exact Hf].
Qed.

(** The pass that decides a run is unique. *)
Lemma deciding_pass_unique (c : cacheLimiter) (sched : list Tick)
  (i i' : nat) (t t' : Tick) :
  nth_error sched i = Some t -> nth_error sched i' = Some t' ->
  reaches_pass c count sched i -> reaches_pass c count sched i' ->
  attempt_at c count sched i t = true \/ doneFirst t = true ->
  attempt_at c count sched i' t' = true \/ doneFirst t' = true ->
  i = i'.
Proof.
  intros En En' Hr Hr' Hd Hd'.
  destruct (Nat.lt_trichotomy i i') as [Hlt|[E|Hlt]]; [|exact E|].
  - destruct (Hr' i t Hlt En) as [H1 H2].
    destruct Hd as [Hd|Hd]; congruence.
  - destruct (Hr i' t' Hlt En') as [H1 H2].
    destruct Hd' as [Hd'|Hd']; congruence.
Qed.

End WaitSpec.

(** C4.  [WaitUntilAddBytes] returns [nil] exactly when one of the
    [TryAddBytes] calls its loop makes returns [true]: there is a pass [i]
    that the loop reaches (every earlier [TryAddBytes] returned [false] and
    every earlier [select] ended on the timer) at which [TryAddBytes], called
    on the limiter as the other goroutines have left it by then, returns
    [true]; the call then returns at that pass with [count] committed on top
    of that limiter.  An error it returns is the context's error, and it
    returns it exactly at a pass it reaches where [TryAddBytes] returned
    [false] and the [select] took [ctx.Done()]; its own adds have then all
    been rolled back.  In particular, with the counter at the limit (any
    limit from 0 up to but excluding the largest [int64], so also the
    specification's limit 10), [count = 1], a predicate answering [false]
    and a context whose [Done] branch is taken at the first [select], the
    call returns the context's error after one refused attempt and leaves
    the limiter unchanged. *)
Theorem WaitUntilAddBytes_returns
  (error : Type) (ctx : Context error) (c : cacheLimiter) (count : Z)
  (sched : list Tick) :
  Int64.in_range (value c) ->
  let r := WaitUntilAddBytes ctx c count sched in
  (outcome r = Returned None <->
   exists i t, nth_error sched i = Some t /\ reaches_pass c count sched i
               /\ attempt_at c count sched i t = true)
  /\ (forall i t,
        nth_error sched i = Some t -> reaches_pass c count sched i ->
        attempt_at c count sched i t = true ->
        outcome r = Returned None
        /\ attempts r = repeat false i ++ [true]
        /\ final r
           = {| value := Int64.add (value (limiter_at_pass c sched i)) count;
                limit := limit c |})
  /\ (forall e, outcome r = Returned (Some e) ->
        e = Err ctx
        /\ exists i t, nth_error sched i = Some t
                       /\ reaches_pass c count sched i
                       /\ attempt_at c count sched i t = false
                       /\ doneFirst t = true)
  /\ (forall i t,
        nth_error sched i = Some t -> reaches_pass c count sched i ->
        attempt_at c count sched i t = false -> doneFirst t = true ->
        outcome r = Returned (Some (Err ctx))
        /\ attempts r = repeat false (S i)
        /\ final r = limiter_at_pass c sched (S i))
  /\ (forall t rest,
        sched = t :: rest ->
        useRelaxedLimit t = false -> doneFirst t = true -> others t = [] ->
        0 <= limit c < Int64.max_int64 -> value c = limit c -> count = 1 ->
        outcome r = Returned (Some (Err ctx))
        /\ attempts r = [false] /\ final r = c).
Proof.
  intros Hv r.
  pose proof (WaitUntilAddBytes_decided ctx count sched c Hv) as Hdec.
  cbv zeta in Hdec. fold r in Hdec.
  assert (forall i t,
             nth_error sched i = Some t -> reaches_pass c count sched i ->
             attempt_at c count sched i t = true ->
             outcome r = Returned None
             /\ attempts r = repeat false i ++ [true]
             /\ final r
                = {| value := Int64.add (value (limiter_at_pass c sched i)) count;
                     limit := limit c |}) as Hnil.
  { intros i t En Hr Ha.
    destruct Hdec as [(i' & t' & En' & Hr' & Ha' & Ho & Hat & Hf)
                     |[(i' & t' & En' & Hr' & Ha' & Hd' & _)
                      |(Hr' & _)]].
    - assert (i = i') as <-
          by (eapply (deciding_pass_unique count c sched i i' t t'); eauto).
      assert (t' = t) as -> by congruence.
      split; [exact Ho|]. split; [exact Hat|]. rewrite Hf.
      unfold attempt_at in Ha.
      destruct (TryAddBytes_cases (limiter_at_pass c sched i) count
                  (useRelaxedLimit t)) as [[_ E]|[_ E]];
        rewrite E in *; [|discriminate].
      cbn [snd]. f_equal. unfold limiter_at_pass. apply run_limit.
    - assert (i = i') as <-
          by (eapply (deciding_pass_unique count c sched i i' t t'); eauto).
      assert (t' = t) as -> by congruence. congruence.
    - assert (i < length sched)%nat as Hlt
          by (apply nth_error_Some; congruence).
      destruct (Hr' i t Hlt En) as [H1 _]. congruence. }
  assert (forall i t,
             nth_error sched i = Some t -> reaches_pass c count sched i ->
             attempt_at c count sched i t = false -> doneFirst t = true ->
             outcome r = Returned (Some (Err ctx))
             /\ attempts r = repeat false (S i)
             /\ final r = limiter_at_pass c sched (S i)) as Herr.
  { intros i t En Hr Ha Hd.
    destruct Hdec as [(i' & t' & En' & Hr' & Ha' & _)
                     |[(i' & t' & En' & Hr' & Ha' & Hd' & Ho & Hat & Hf)
                      |(Hr' & _)]].
    - assert (i = i') as <-
          by (eapply (deciding_pass_unique count c sched i i' t t'); eauto).
      assert (t' = t) as -> by congruence. congruence.
    - assert (i = i') as <-
          by (eapply (deciding_pass_unique count c sched i i' t t'); eauto).
      split; [exact Ho|]. split; [exact Hat | exact Hf].
    - assert (i < length sched)%nat as Hlt
          by (apply nth_error_Some; congruence).
      destruct (Hr' i t Hlt En) as [_ H2]. congruence. }
  split; [|split; [exact Hnil | split; [|split; [exact Herr|]]]].
  - split.
    + intros Ho.
      destruct Hdec as [(i & t & En & Hr & Ha & _)
                       |[(i & t & _ & _ & _ & _ & Ho' & _)
                        |(_ & Ho' & _)]].
      * exists i, t. split; [exact En|]. split; [exact Hr | exact Ha].
      * congruence.
      * congruence.
    + intros (i & t & En & Hr & Ha). now apply (Hnil i t).
  - intros e Ho.
    destruct Hdec as [(i & t & _ & _ & _ & Ho' & _)
                     |[(i & t & En & Hr & Ha & Hd & Ho' & _)
                      |(_ & Ho' & _)]].
    + congruence.
    + split; [congruence|]. exists i, t.
      split; [exact En|]. split; [exact Hr|]. split; [exact Ha | exact Hd].
    + congruence.
  - intros t rest Hs Hr Hd Ho Hl Hval Hc. subst r count. rewrite Hs.
    rewrite (WaitUntilAddBytes_full_cancelled ctx c t rest) by assumption.
    split; [reflexivity|]. split; reflexivity.
Qed.

Lemma WaitUntilAddBytes_returns_witness :
  let ctx := {| Err := tt |} in
  let c := {| value := 10; limit := 10 |} in
  let sched := [ {| useRelaxedLimit := false; draw := S754_zero false;
                    others := []; doneFirst := true |} ] in
  let r := WaitUntilAddBytes ctx c 1 sched in
  (outcome r = Returned None <->
   exists i t, nth_error sched i = Some t /\ reaches_pass c 1 sched i
               /\ attempt_at c 1 sched i t = true)
  /\ (forall i t,
        nth_error sched i = Some t -> reaches_pass c 1 sched i ->
        attempt_at c 1 sched i t = true ->
        outcome r = Returned None
        /\ attempts r = repeat false i ++ [true]
        /\ final r
           = {| value := Int64.add (value (limiter_at_pass c sched i)) 1;
                limit := limit c |})
  /\ (forall e, outcome r = Returned (Some e) ->
        e = Err ctx
        /\ exists i t, nth_error sched i = Some t
                       /\ reaches_pass c 1 sched i
                       /\ attempt_at c 1 sched i t = false
                       /\ doneFirst t = true)
  /\ (forall i t,
        nth_error sched i = Some t -> reaches_pass c 1 sched i ->
        attempt_at c 1 sched i t = false -> doneFirst t = true ->
        outcome r = Returned (Some (Err ctx))
        /\ attempts r = repeat false (S i)
        /\ final r = limiter_at_pass c sched (S i))
  /\ (forall t rest,
        sched = t :: rest ->
        useRelaxedLimit t = false -> doneFirst t = true -> others t = [] ->
        0 <= limit c < Int64.max_int64 -> value c = limit c -> 1 = 1 ->
        outcome r = Returned (Some (Err ctx))
        /\ attempts r = [false] /\ final r = c).
Proof.
  apply (WaitUntilAddBytes_returns unit {| Err := tt |}
           {| value := 10; limit := 10 |} 1
           [ {| useRelaxedLimit := false; draw := S754_zero false;
                others := []; doneFirst := true |} ]).
  in_range_by_computation.
Defined.

(** A loop that finds room at its first attempt: the wait returns [nil]
    at pass 0 with the bytes committed, also under a done context. *)
Example wait_with_room :
  let t := {| useRelaxedLimit := false; draw := S754_zero false;
              others := []; doneFirst := true |} in
  let r := WaitUntilAddBytes {| Err := tt |} {| value := 60; limit := 100 |} 10 [t] in
  attempt_at {| value := 60; limit := 100 |} 10 [t] 0 t = true
  /\ outcome r = Returned None
  /\ final r = {| value := 70; limit := 100 |}.
Proof. repeat split. Qed.

(** The cancellation example of the specification: limit 10, counter 10. *)
Example cancellation_example (err : Type) (ctx : Context err) (r : Float32.float32) :
  let t := {| useRelaxedLimit := false; draw := r; others := [];
              doneFirst := true |} in
  let res := WaitUntilAddBytes ctx {| value := 10; limit := 10 |} 1 [t] in
  outcome res = Returned (Some (Err ctx))
  /\ attempts res = [false]
  /\ final res = {| value := 10; limit := 10 |}.
Proof. cbn. repeat split. Qed.

(** ** Frame *)

(** C9.  No operation changes the limit: after [TryAddBytes],
    [RemoveBytes] and [WaitUntilAddBytes] (on any schedule, including the
    calls other goroutines make meanwhile) the limiter's [limit] is the
    one it had before; [value] is the only field that changes. *)
Theorem limit_is_immutable
  (error : Type) (ctx : Context error) (c : cacheLimiter) (count : Z)
  (useRelaxed : bool) (sched : list Tick) (ks : list Call) :
  limit (snd (TryAddBytes c count useRelaxed)) = limit c
  /\ limit (RemoveBytes c count) = limit c
  /\ limit (final (WaitUntilAddBytes ctx c count sched)) = limit c
  /\ limit (snd (run c ks)) = limit c.
Proof.
  repeat split.
  - apply TryAddBytes_limit.
  - apply WaitUntilAddBytes_limit.
  - apply run_limit.
Qed.

(** ** Release *)

(** C10.  A successful [TryAddBytes] followed at once by [RemoveBytes] of
    the same count gives back the limiter as it was before the add.
    [RemoveBytes] has no floor at zero: removing more than the counter
    holds leaves it negative, at the exact difference (down to the least
    [int64]). *)
Theorem add_then_remove_round_trip
  (c : cacheLimiter) (count : Z) (useRelaxed : bool) :
  Int64.in_range (value c) ->
  (fst (TryAddBytes c count useRelaxed) = true ->
   RemoveBytes (snd (TryAddBytes c count useRelaxed)) count = c)
  /\ (value c < count -> Int64.min_int64 <= value c - count ->
      value (RemoveBytes c count) = value c - count
      /\ value (RemoveBytes c count) < 0).
Proof.
  intros Hv. split.
  - intros Ht.
    destruct (TryAddBytes_cases c count useRelaxed) as [[_ E]|[_ E]];
      rewrite E in *; [|discriminate].
    unfold RemoveBytes, AddInt64. cbn [snd value limit].
    rewrite add_neg_cancel by assumption. apply cacheLimiter_eta.
  - intros Hlt Hlow. rewrite RemoveBytes_value.
    rewrite wrap_small by (i64_unfold; lia). lia.
Qed.

Lemma add_then_remove_round_trip_witness :
  (fst (TryAddBytes (NewCacheLimiter 100) 30 false) = true ->
   RemoveBytes (snd (TryAddBytes (NewCacheLimiter 100) 30 false)) 30
   = NewCacheLimiter 100)
  /\ (value (NewCacheLimiter 100) < 30 ->
      Int64.min_int64 <= value (NewCacheLimiter 100) - 30 ->
      value (RemoveBytes (NewCacheLimiter 100) 30)
      = value (NewCacheLimiter 100) - 30
      /\ value (RemoveBytes (NewCacheLimiter 100) 30) < 0).
Proof.
  apply (add_then_remove_round_trip (NewCacheLimiter 100) 30 false).
  in_range_by_computation.
Defined.

(** Both halves of the witness are live: the add succeeds, and removing 30
    from the empty limiter leaves -30. *)
Example remove_below_zero :
  fst (TryAddBytes (NewCacheLimiter 100) 30 false) = true
  /\ value (RemoveBytes (NewCacheLimiter 100) 30) = -30.
Proof. split; reflexivity. Qed.

(** ** The retry delay *)

(** The largest draw, [1 - 2^-24], asks for 128 ns less than two seconds;
    one half asks for one second. *)
Example backoff_largest_draw :
  backoff (S754_finite false 16777215 (-24)) = 1999999872
  /\ backoff (S754_finite false 8388608 (-24)) = time_Second.
Proof. split; reflexivity. Qed.

(** The delay between two attempts lies in [[0, 2 s)]: for every binary32
    draw of [[0, 1)] the duration [2 * float32(time.Second) * r], truncated
    to nanoseconds, is at least 0 and below 2000000000, and so is every
    duration [WaitUntilAddBytes] hands to [time.After] when its draws come
    from that interval.  (How the durations are distributed is a matter of
    the generator behind [rand.Float32], which is an input here.) *)
Theorem backoff_within_two_seconds
  (error : Type) (ctx : Context error) (c : cacheLimiter) (count : Z)
  (sched : list Tick) (r : Float32.float32) :
  Float32.in_unit_interval r ->
  Forall (fun t => Float32.in_unit_interval (draw t)) sched ->
  0 <= backoff r < 2 * time_Second
  /\ Forall (fun d => 0 <= d < 2 * time_Second)
       (delays (WaitUntilAddBytes ctx c count sched)).
Proof.
  intros Hr Hs. split.
  - now apply backoff_bounds.
  - now apply WaitUntilAddBytes_delays.
Qed.

Lemma backoff_within_two_seconds_witness :
  let half := S754_finite false 8388608 (-24) in
  let t := {| useRelaxedLimit := false; draw := half; others := [];
              doneFirst := true |} in
  0 <= backoff half < 2 * time_Second
  /\ Forall (fun d => 0 <= d < 2 * time_Second)
       (delays (WaitUntilAddBytes {| Err := tt |} {| value := 10; limit := 10 |} 1 [t])).
Proof.
  apply (backoff_within_two_seconds unit {| Err := tt |}
           {| value := 10; limit := 10 |} 1).
  - cbn. repeat split. lia.
  - constructor; [|constructor]. cbn. repeat split. lia.
Defined.

(** * Further properties *)

Lemma effectiveLimit_le_limit (c : cacheLimiter) (r : bool) :
  0 <= limit c -> Int64.in_range (limit c) ->
  0 <= effectiveLimit c r <= limit c.
Proof.
  intros H0 Hr. destruct r; cbn [effectiveLimit negb]; [lia|].
  destruct (Z.eq_dec (limit c) 0) as [E|E].
  - rewrite E. change (strictLimit 0) with 0. lia.
  - pose proof (strictLimit_lt (limit c) ltac:(lia) Hr). lia.
Qed.

Lemma requested_nonneg (ks : list Call) :
  Forall (fun k => 0 <= call_count k) ks -> 0 <= requested ks /\ 0 <= released ks.
Proof.
  induction 1 as [|k ks Hk _ IH]; cbn; [lia|].
  destruct k; cbn in *; lia.
Qed.

Lemma firstn_requested (n : nat) (ks : list Call) :
  Forall (fun k => 0 <= call_count k) ks ->
  requested (firstn n ks) <= requested ks
  /\ released (firstn n ks) <= released ks.
Proof.
  intros H. revert n.
  induction H as [|k ks Hk Hks IH]; intros [|n]; cbn; try lia.
  - pose proof (requested_nonneg ks Hks). destruct k; cbn in *; lia.
  - specialize (IH n). destruct k; cbn in *; lia.
Qed.

Lemma Forall_firstn' {A : Type} (P : A -> Prop) (n : nat) (l : list A) :
  Forall P l -> Forall P (firstn n l).
Proof.
  intros H. revert n. induction H as [|x l Hx _ IH]; intros [|n]; cbn;
    constructor; auto.
Qed.

Lemma run_within_limit (ks : list Call) :
  forall c,
    0 <= limit c -> Int64.in_range (limit c) -> Int64.in_range (value c) ->
    value c <= limit c ->
    Forall (fun k => 0 <= call_count k) ks ->
    value c + requested ks <= Int64.max_int64 ->
    Int64.min_int64 <= value c - released ks ->
    value c - released ks <= value (snd (run c ks)) <= limit c.
Proof.
  induction ks as [|k ks IH]; intros c Hl0 Hlr Hv Hle Hq Hmax Hmin.
  - cbn in *. lia.
  - apply Forall_cons_iff in Hq as [Hk Hq].
    pose proof (requested_nonneg ks Hq) as [Hrq Hrl].
    cbn [run]. destruct k as [count r|count]; cbn [step call_count requested released] in *.
    + pose proof (effectiveLimit_le_limit c r Hl0 Hlr) as Hel.
      assert (Int64.add (value c) count = value c + count) as Ea
        by (apply add_exact; i64_unfold; lia).
      destruct (TryAddBytes_cases c count r) as [[Hc E]|[Hc E]]; rewrite E.
      * specialize (IH {| value := Int64.add (value c) count; limit := limit c |}).
        destruct (run _ ks) as [evs c2]. cbn [snd value limit] in *.
        rewrite Ea in *.
        assert (Int64.in_range (value c + count)) by (i64_unfold; lia).
        specialize (IH Hl0 Hlr ltac:(assumption) ltac:(lia) Hq ltac:(lia) ltac:(lia)).
        lia.
      * rewrite add_neg_cancel by assumption.
        specialize (IH {| value := value c; limit := limit c |}).
        destruct (run _ ks) as [evs c2]. cbn [snd value limit] in *.
        specialize (IH Hl0 Hlr Hv Hle Hq ltac:(lia) ltac:(lia)). lia.
    + specialize (IH (RemoveBytes c count)).
      rewrite RemoveBytes_value, RemoveBytes_limit in IH.
      rewrite wrap_small in IH by (i64_unfold; lia).
      destruct (run _ ks) as [evs c2]. cbn [snd] in *.
      assert (Int64.in_range (value c - count)) by (i64_unfold; lia).
      specialize (IH Hl0 Hlr ltac:(assumption) ltac:(lia) Hq ltac:(lia) ltac:(lia)).
      lia.
Qed.

(** ** The ceiling, one call at a time

    With a non-negative limit, a counter that starts at or below it stays
    at or below it after every call of a history whose counts are
    non-negative, as long as nothing overflows: the adds asked for fit
    above the counter and the removes fit below it.  The counter never
    falls below its start less what was removed. *)
Theorem counter_stays_within_limit (c : cacheLimiter) (ks : list Call) (n : nat) :
  0 <= limit c -> Int64.in_range (limit c) -> Int64.in_range (value c) ->
  value c <= limit c ->
  Forall (fun k => 0 <= call_count k) ks ->
  value c + requested ks <= Int64.max_int64 ->
  Int64.min_int64 <= value c - released ks ->
  value c - released ks <= value (snd (run c (firstn n ks))) <= limit c.
Proof.
  intros Hl0 Hlr Hv Hle Hq Hmax Hmin.
  pose proof (firstn_requested n ks Hq) as [H1 H2].
  pose proof (run_within_limit (firstn n ks) c Hl0 Hlr Hv Hle
                (Forall_firstn' _ n ks Hq) ltac:(lia) ltac:(lia)).
  lia.
Qed.

Lemma counter_stays_within_limit_witness :
  let c := NewCacheLimiter 100 in
  let ks := [CallTryAddBytes 60 false; CallTryAddBytes 50 true;
             CallRemoveBytes 30] in
  value c - released ks <= value (snd (run c (firstn 3 ks))) <= limit c.
Proof.
  apply (counter_stays_within_limit (NewCacheLimiter 100)
           [CallTryAddBytes 60 false; CallTryAddBytes 50 true;
            CallRemoveBytes 30] 3).
  - cbn. lia.
  - in_range_by_computation.
  - in_range_by_computation.
  - cbn. lia.
  - repeat constructor; cbn; lia.
  - vm_compute. discriminate.
  - vm_compute. discriminate.
Defined.

(** ** Overflow

    A request so large that the add overflows [int64] is admitted: the sum
    wraps to a negative number, which is below any threshold of a
    non-negative limit, so [TryAddBytes] returns [true] and leaves the
    counter negative. *)
Theorem overflowing_request_is_admitted
  (c : cacheLimiter) (count : Z) (useRelaxed : bool) :
  0 <= limit c -> Int64.in_range (limit c) ->
  Int64.in_range (value c) -> Int64.in_range count ->
  Int64.max_int64 < value c + count ->
  TryAddBytes c count useRelaxed
  = (true, {| value := value c + count - 2 ^ 64; limit := limit c |})
  /\ value c + count - 2 ^ 64 < 0.
Proof.
  intros Hl0 Hlr Hv Hc Hov.
  pose proof (effectiveLimit_le_limit c useRelaxed Hl0 Hlr) as Hel.
  assert (Int64.add (value c) count = value c + count - 2 ^ 64) as Ea.
  { unfold Int64.add, Int64.wrap. i64_unfold.
    replace (value c + count + 9223372036854775808)
      with (value c + count - 9223372036854775808 + 1 * 18446744073709551616) by lia.
    rewrite Z_mod_plus_full, Z.mod_small by lia. lia. }
  assert (value c + count - 2 ^ 64 < 0) as Hneg by (i64_unfold; lia).
  split; [|exact Hneg].
  rewrite TryAddBytes_success by (rewrite Ea; lia).
  now rewrite Ea.
Qed.

Lemma overflowing_request_is_admitted_witness :
  TryAddBytes {| value := 1; limit := 100 |} Int64.max_int64 false
  = (true, {| value := 1 + Int64.max_int64 - 2 ^ 64; limit := 100 |})
  /\ 1 + Int64.max_int64 - 2 ^ 64 < 0.
Proof.
  apply (overflowing_request_is_admitted {| value := 1; limit := 100 |}
           Int64.max_int64 false).
  - cbn. lia.
  - in_range_by_computation.
  - in_range_by_computation.
  - in_range_by_computation.
  - reflexivity.
Defined.

(** ** Limits that are not positive

    [NewCacheLimiter] takes any [int64].  For a limit of zero or less the
    relaxed ceiling is at most the strict ceiling, which is at most zero;
    for a negative limit the strict ceiling is strictly the higher of the
    two (truncation is toward zero). *)
Theorem nonpositive_limit_ceilings (lim : Z) :
  Int64.in_range lim -> lim <= 0 ->
  let c := NewCacheLimiter lim in
  effectiveLimit c true <= effectiveLimit c false <= 0
  /\ (lim < 0 -> effectiveLimit c true < effectiveLimit c false).
Proof.
  intros Hr Hle c. subst c. cbn [effectiveLimit NewCacheLimiter limit negb].
  rewrite strictLimit_three_quarters by assumption.
  destruct lim as [|p|p]; try lia.
  - change (Float32.three_quarters 0) with 0. lia.
  - rewrite three_quarters_neg.
    pose proof (three_quarters_bound (Zpos p) ltac:(lia)). lia.
Qed.

Lemma nonpositive_limit_ceilings_witness :
  let c := NewCacheLimiter (-4) in
  effectiveLimit c true <= effectiveLimit c false <= 0
  /\ (-4 < 0 -> effectiveLimit c true < effectiveLimit c false).
Proof.
  apply (nonpositive_limit_ceilings (-4)).
  - in_range_by_computation.
  - vm_compute. discriminate.
Defined.

(** ** How close the strict ceiling is to three quarters

    While [3 * |limit|] is below [2^24] no rounding occurs: the strict
    ceiling is [3 * limit / 4] with the fraction dropped. *)
Theorem strictLimit_exact_when_small (lim : Z) :
  3 * Z.abs lim < 2 ^ 24 -> strictLimit lim = Z.quot (3 * lim) 4.
Proof.
  intros H. change (2 ^ 24) with 16777216 in H.
  rewrite strictLimit_three_quarters by (i64_unfold; lia).
  unfold Float32.three_quarters.
  assert (forall p, Zpos p < 16777216 -> Float32.round_sig24 (Zpos p) = Zpos p) as Hs.
  { intros p Hp. apply round_sig24_small. apply digits2_pos_le; [lia | exact Hp]. }
  destruct lim as [|p|p].
  - reflexivity.
  - rewrite (Hs p) by lia. change (3 * Zpos p) with (Zpos (3 * p)).
    rewrite Hs by lia. reflexivity.
  - change (Zneg p) with (- Zpos p).
    rewrite round_sig24_opp, (Hs p) by lia.
    change (3 * - Zpos p) with (- Zpos (3 * p)).
    rewrite round_sig24_opp, Hs by lia. reflexivity.
Qed.

Lemma strictLimit_exact_when_small_witness :
  strictLimit 1001 = Z.quot (3 * 1001) 4.
Proof.
  apply (strictLimit_exact_when_small 1001). reflexivity.
Defined.

(** For a positive limit of any size the strict ceiling is within
    [limit / 2^21] of [3 * limit / 4] from above and within that much plus
    one from below: [4 * strict - 3 * limit <= limit / 2^21] and
    [3 * limit - 4 * (strict + 1) < limit / 2^21], stated without
    division. *)
Theorem strictLimit_accuracy (lim : Z) :
  0 < lim -> Int64.in_range lim ->
  2 ^ 23 * (4 * strictLimit lim - 3 * lim) <= 4 * lim
  /\ 2 ^ 23 * (3 * lim - 4 * (strictLimit lim + 1)) < 4 * lim.
Proof.
  intros Hpos Hr. rewrite strictLimit_three_quarters by assumption.
  destruct lim as [|p|p]; try lia.
  rewrite three_quarters_pos.
  pose proof (round_sig24_pos (Zpos p) Hpos) as HL.
  pose proof (round_sig24_upper (Zpos p) Hpos) as HLu.
  pose proof (round_sig24_lower (Zpos p) Hpos) as HLl.
  set (L := Float32.round_sig24 (Zpos p)) in *.
  pose proof (round_sig24_upper (3 * L) ltac:(lia)) as HRu.
  pose proof (round_sig24_lower (3 * L) ltac:(lia)) as HRl.
  set (R := Float32.round_sig24 (3 * L)) in *.
  pose proof (Z.mul_div_le R 4 ltac:(lia)) as Hq1.
  pose proof (Z.mul_succ_div_gt R 4 ltac:(lia)) as Hq2.
  change (2 ^ 24) with 16777216 in *. change (2 ^ 23) with 8388608.
  split; lia.
Qed.

Lemma strictLimit_accuracy_witness :
  2 ^ 23 * (4 * strictLimit 11184813 - 3 * 11184813) <= 4 * 11184813
  /\ 2 ^ 23 * (3 * 11184813 - 4 * (strictLimit 11184813 + 1)) < 4 * 11184813.
Proof.
  apply (strictLimit_accuracy 11184813).
  - reflexivity.
  - in_range_by_computation.
Defined.

(** With a non-negative limit, a request that strict mode admits is
    admitted in relaxed mode as well. *)
Theorem strict_admission_implies_relaxed (c : cacheLimiter) (count : Z) :
  0 <= limit c -> Int64.in_range (limit c) ->
  fst (TryAddBytes c count false) = true ->
  fst (TryAddBytes c count true) = true.
Proof.
  intros Hl0 Hlr Hs.
  pose proof (effectiveLimit_le_limit c false Hl0 Hlr) as Hel.
  destruct (TryAddBytes_cases c count false) as [[Hc _]|[_ E]];
    [|rewrite E in Hs; discriminate].
  rewrite TryAddBytes_success; [reflexivity|].
  change (effectiveLimit c true) with (limit c). lia.
Qed.

Lemma strict_admission_implies_relaxed_witness :
  fst (TryAddBytes (NewCacheLimiter 100) 50 true) = true.
Proof.
  apply (strict_admission_implies_relaxed (NewCacheLimiter 100) 50).
  - cbn. lia.
  - in_range_by_computation.
  - reflexivity.
Defined.

Lemma round_half_even_mono (a b n : Z) :
  0 <= n -> a <= b ->
  Float32.round_half_even a n <= Float32.round_half_even b n.
Proof.
  intros Hn Hab.
  pose proof (round_half_even_near a n Hn) as ((Ha1 & Ha2) & _).
  pose proof (round_half_even_near b n Hn) as ((Hb1 & Hb2) & _).
  assert (0 < 2 ^ n) as Hp by lia.
  pose proof (Z.div_le_mono a b (2 ^ n) Hp Hab) as Hq.
  destruct (Z.eq_dec (a / 2 ^ n) (b / 2 ^ n)) as [E|E]; [|lia].
  pose proof (Z.div_mod a (2 ^ n) ltac:(lia)) as Da.
  pose proof (Z.div_mod b (2 ^ n) ltac:(lia)) as Db.
  assert (a mod 2 ^ n <= b mod 2 ^ n) as Hr by (rewrite E in Da; lia).
  unfold Float32.round_half_even. rewrite E.
  destruct (Z.compare_spec (2 * (a mod 2 ^ n)) (2 ^ n));
    destruct (Z.compare_spec (2 * (b mod 2 ^ n)) (2 ^ n));
    destruct (Z.even (b / 2 ^ n)); lia.
Qed.

Lemma round_sig24_binade (p : positive) :
  2 ^ (Zpos (digits2_pos p) - 1) <= Float32.round_sig24 (Zpos p)
    <= 2 ^ Zpos (digits2_pos p).
Proof.
  pose proof (digits2_pos_bounds p) as Hb.
  destruct (Z_le_gt_dec (Zpos (digits2_pos p)) 24) as [Hd|Hd].
  - rewrite round_sig24_small by assumption. lia.
  - rewrite round_sig24_large by lia.
    pose proof (quotient_24_bits p ltac:(lia)) as Hq.
    set (n := Zpos (digits2_pos p) - 24) in *.
    pose proof (round_half_even_near (Zpos p) n ltac:(lia)) as (Hn & _).
    replace (Zpos (digits2_pos p) - 1) with (23 + n) by lia.
    replace (Zpos (digits2_pos p)) with (24 + n) by lia.
    rewrite !Z.pow_add_r by lia.
    assert (0 < 2 ^ n) by lia.
    change (2 ^ 23) with 8388608 in *. change (2 ^ 24) with 16777216 in *.
    split; nia.
Qed.

Lemma round_sig24_mono_pos (x y : positive) :
  Zpos x <= Zpos y ->
  Float32.round_sig24 (Zpos x) <= Float32.round_sig24 (Zpos y).
Proof.
  intros Hxy.
  assert (Zpos (digits2_pos x) <= Zpos (digits2_pos y)) as Hd
    by (rewrite !digits2_pos_log2; pose proof (Z.log2_le_mono _ _ Hxy); lia).
  destruct (Z.eq_dec (Zpos (digits2_pos x)) (Zpos (digits2_pos y))) as [E|E].
  - destruct (Z_le_gt_dec (Zpos (digits2_pos y)) 24) as [H24|H24].
    + rewrite !round_sig24_small by lia. exact Hxy.
    + rewrite !round_sig24_large by lia. rewrite E.
      apply Z.mul_le_mono_nonneg_r; [lia|].
      apply round_half_even_mono; lia.
  - pose proof (round_sig24_binade x) as (_ & Hx).
    pose proof (round_sig24_binade y) as (Hy & _).
    assert (2 ^ Zpos (digits2_pos x) <= 2 ^ (Zpos (digits2_pos y) - 1))
      by (apply Z.pow_le_mono_r; lia).
    lia.
Qed.

Lemma round_sig24_nonneg_pos (p : positive) : 0 < Float32.round_sig24 (Zpos p).
Proof. apply round_sig24_pos. lia. Qed.

Lemma round_sig24_mono (x y : Z) :
  x <= y -> Float32.round_sig24 x <= Float32.round_sig24 y.
Proof.
  intros Hxy.
  destruct x as [|p|p], y as [|q|q]; try lia;
    try change (Float32.round_sig24 0) with 0;
    try change (Zneg p) with (- Zpos p); try change (Zneg q) with (- Zpos q);
    rewrite ?round_sig24_opp;
    try pose proof (round_sig24_nonneg_pos p);
    try pose proof (round_sig24_nonneg_pos q); try lia.
  - now apply round_sig24_mono_pos.
  - assert (Zpos q <= Zpos p) as H' by lia.
    pose proof (round_sig24_mono_pos q p H'). lia.
Qed.

(** A larger limit never has a smaller strict ceiling. *)
Theorem strictLimit_monotone (lim1 lim2 : Z) :
  Int64.in_range lim1 -> Int64.in_range lim2 -> lim1 <= lim2 ->
  strictLimit lim1 <= strictLimit lim2.
Proof.
  intros H1 H2 Hle.
  rewrite !strictLimit_three_quarters by assumption.
  unfold Float32.three_quarters.
  apply Z.quot_le_mono; [lia|].
  apply round_sig24_mono.
  pose proof (round_sig24_mono lim1 lim2 Hle). lia.
Qed.

Lemma strictLimit_monotone_witness :
  strictLimit 11184812 <= strictLimit 11184813.
Proof.
  apply (strictLimit_monotone 11184812 11184813).
  - in_range_by_computation.
  - in_range_by_computation.
  - vm_compute. discriminate.
Defined.

Lemma first_attempt_with_room
  (error : Type) (ctx : Context error) (c : cacheLimiter) (count : Z)
  (t : Tick) (rest : list Tick) :
  Int64.add (value c) count <= effectiveLimit c (useRelaxedLimit t) ->
  WaitUntilAddBytes ctx c count (t :: rest)
  = {| outcome := Returned None; attempts := [true]; delays := [];
       final := {| value := Int64.add (value c) count; limit := limit c |} |}.
Proof.
  intros H. rewrite WaitUntilAddBytes_cons.
  now rewrite TryAddBytes_success by assumption.
Qed.

(** ** The blocking add and its context

    The loop tries before it looks at the context.  When the [Done] branch
    is taken at the first [select] (the context was cancelled before the
    call, say), exactly one attempt has been made: if it found room the
    call has returned [nil] with [count] committed and no timer created;
    if not, the call returns the context's error and the limiter is as the
    other goroutines left it. *)
Theorem done_context_still_tries_once
  (error : Type) (ctx : Context error) (c : cacheLimiter) (count : Z)
  (t : Tick) (rest : list Tick) :
  doneFirst t = true -> Int64.in_range (value c) ->
  let r := WaitUntilAddBytes ctx c count (t :: rest) in
  let after := Int64.add (value c) count in
  let threshold := effectiveLimit c (useRelaxedLimit t) in
  (after <= threshold ->
   r = {| outcome := Returned None; attempts := [true]; delays := [];
          final := {| value := after; limit := limit c |} |})
  /\ (threshold < after ->
      r = {| outcome := Returned (Some (Err ctx)); attempts := [false];
             delays := [backoff (draw t)];
             final := snd (run c (others t)) |}).
Proof.
  intros Hd Hv r after threshold. subst r after threshold. split; intros H.
  - now apply first_attempt_with_room.
  - rewrite WaitUntilAddBytes_cons.
    rewrite TryAddBytes_failure by assumption. cbn [fst snd].
    rewrite add_neg_cancel, cacheLimiter_eta by assumption.
    cbv zeta. now rewrite Hd.
Qed.

Lemma done_context_still_tries_once_witness :
  let c := {| value := 60; limit := 100 |} in
  let t := {| useRelaxedLimit := false; draw := S754_zero false;
              others := []; doneFirst := true |} in
  let r := WaitUntilAddBytes {| Err := tt |} c 10 [t] in
  let after := Int64.add (value c) 10 in
  let threshold := effectiveLimit c (useRelaxedLimit t) in
  (after <= threshold ->
   r = {| outcome := Returned None; attempts := [true]; delays := [];
          final := {| value := after; limit := limit c |} |})
  /\ (threshold < after ->
      r = {| outcome := Returned (Some (Err {| Err := tt |}));
             attempts := [false]; delays := [backoff (draw t)];
             final := snd (run c (others t)) |}).
Proof.
  apply (done_context_still_tries_once unit {| Err := tt |}
           {| value := 60; limit := 100 |} 10
           {| useRelaxedLimit := false; draw := S754_zero false;
              others := []; doneFirst := true |} []).
  - reflexivity.
  - in_range_by_computation.
Defined.

(** If the [Done] branch is taken at pass [i] of a schedule, the call has
    returned by then: it does not stay in the loop, it made at most
    [i + 1] attempts, and unless it returned [nil] it returns the
    context's error with every attempt having failed. *)
Theorem cancellation_ends_the_wait
  (error : Type) (ctx : Context error) (count : Z) (sched : list Tick) :
  forall (c : cacheLimiter) (i : nat) (t : Tick),
    nth_error sched i = Some t -> doneFirst t = true ->
    let r := WaitUntilAddBytes ctx c count sched in
    outcome r <> Blocked
    /\ (length (attempts r) <= S i)%nat
    /\ (outcome r <> Returned None ->
        outcome r = Returned (Some (Err ctx))
        /\ Forall (fun a => a = false) (attempts r)).
Proof.
  induction sched as [|t0 sched IH]; intros c i t Hn Hd r.
  - destruct i; discriminate.
  - subst r. rewrite WaitUntilAddBytes_cons.
    destruct (fst (TryAddBytes c count (useRelaxedLimit t0))).
    + cbn [outcome attempts length]. split; [discriminate|].
      split; [lia|]. intros H. now contradiction H.
    + cbv zeta. destruct (doneFirst t0) eqn:Ed0.
      * cbn [outcome attempts length]. split; [discriminate|].
        split; [lia|]. intros _. split; [reflexivity|].
        repeat constructor.
      * destruct i as [|i]; cbn [nth_error] in Hn.
        { injection Hn as ->. congruence. }
        specialize (IH (snd (run (snd (TryAddBytes c count (useRelaxedLimit t0)))
                                 (others t0))) i t Hn Hd).
        cbv zeta in IH. destruct IH as (H1 & H2 & H3).
        cbn [outcome attempts length]. split; [exact H1|].
        split; [lia|]. intros Hne. specialize (H3 Hne) as (H3 & H4).
        split; [exact H3|]. now constructor.
Qed.

Lemma cancellation_ends_the_wait_witness :
  let waiting := {| useRelaxedLimit := false; draw := S754_zero false;
                    others := []; doneFirst := false |} in
  let cancelled := {| useRelaxedLimit := false; draw := S754_zero false;
                      others := []; doneFirst := true |} in
  let r := WaitUntilAddBytes {| Err := tt |} {| value := 10; limit := 10 |} 1
             [waiting; cancelled; waiting] in
  outcome r <> Blocked
  /\ (length (attempts r) <= 2)%nat
  /\ (outcome r <> Returned None ->
      outcome r = Returned (Some (Err {| Err := tt |}))
      /\ Forall (fun a => a = false) (attempts r)).
Proof.
  apply (cancellation_ends_the_wait unit {| Err := tt |} 1
           [ {| useRelaxedLimit := false; draw := S754_zero false;
                others := []; doneFirst := false |};
             {| useRelaxedLimit := false; draw := S754_zero false;
                others := []; doneFirst := true |};
             {| useRelaxedLimit := false; draw := S754_zero false;
                others := []; doneFirst := false |} ]
           {| value := 10; limit := 10 |} 1%nat
           {| useRelaxedLimit := false; draw := S754_zero false;
              others := []; doneFirst := true |}).
  - reflexivity.
  - reflexivity.
Defined.

(** A waiter that found the limiter full is admitted at its next attempt
    when another goroutine's [RemoveBytes] has made room in between. *)
Theorem release_unblocks_the_wait
  (error : Type) (ctx : Context error) (c : cacheLimiter) (count freed : Z)
  (t1 t2 : Tick) (rest : list Tick) :
  Int64.in_range (value c) ->
  effectiveLimit c (useRelaxedLimit t1) < Int64.add (value c) count ->
  others t1 = [CallRemoveBytes freed] -> doneFirst t1 = false ->
  Int64.in_range (value c - freed) ->
  Int64.add (value c - freed) count <= effectiveLimit c (useRelaxedLimit t2) ->
  let r := WaitUntilAddBytes ctx c count (t1 :: t2 :: rest) in
  outcome r = Returned None
  /\ attempts r = [false; true]
  /\ final r = {| value := Int64.add (value c - freed) count; limit := limit c |}.
Proof.
  intros Hv Hfull Ho Hd Hfr Hroom r. subst r.
  rewrite WaitUntilAddBytes_cons.
  rewrite TryAddBytes_failure by assumption. cbn [fst snd].
  rewrite add_neg_cancel, cacheLimiter_eta by assumption.
  cbv zeta. rewrite Hd, Ho. cbn [run step snd].
  assert (RemoveBytes c freed = {| value := value c - freed; limit := limit c |}) as Er.
  { pose proof (RemoveBytes_value c freed) as E1.
    rewrite wrap_small in E1 by assumption.
    destruct (RemoveBytes c freed) as [v l] eqn:E.
    pose proof (RemoveBytes_limit c freed) as E2. rewrite E in E2.
    cbn in *. now subst. }
  rewrite Er.
  rewrite first_attempt_with_room by exact Hroom.
  cbn. repeat split.
Qed.

Lemma release_unblocks_the_wait_witness :
  let c := {| value := 100; limit := 100 |} in
  let t1 := {| useRelaxedLimit := true; draw := S754_zero false;
               others := [CallRemoveBytes 50]; doneFirst := false |} in
  let t2 := {| useRelaxedLimit := true; draw := S754_zero false;
               others := []; doneFirst := false |} in
  let r := WaitUntilAddBytes {| Err := tt |} c 10 [t1; t2] in
  outcome r = Returned None
  /\ attempts r = [false; true]
  /\ final r = {| value := Int64.add (value c - 50) 10; limit := limit c |}.
Proof.
  apply (release_unblocks_the_wait unit {| Err := tt |}
           {| value := 100; limit := 100 |} 10 50
           {| useRelaxedLimit := true; draw := S754_zero false;
              others := [CallRemoveBytes 50]; doneFirst := false |}
           {| useRelaxedLimit := true; draw := S754_zero false;
              others := []; doneFirst := false |} []).
  - in_range_by_computation.
  - reflexivity.
  - reflexivity.
  - reflexivity.
  - in_range_by_computation.
  - vm_compute. discriminate.
Defined.

Lemma nth_error_set_nth_length {A : Type} (i : nat) (x : A) (l : list A) :
  length (set_nth i x l) = length l.
Proof.
  revert i. induction l as [|y l IH]; intros [|i]; cbn; auto.
Qed.

(** The two atomic steps of a call, back to back, are the call. *)
Lemma atomic_steps_are_the_call (c : cacheLimiter) (k : Call) :
  let '(g1, c1) := atomic_step c (Pending k) in
  atomic_step c1 g1 = (Finished (fst (step c k)), snd (step c k)).
Proof.
  destruct k as [count r|count]; cbn [atomic_step step].
  - unfold TryAddBytes. cbn [AddInt64].
    destruct (_ <=? _); reflexivity.
  - reflexivity.
Qed.

Lemma interleave_app (s1 s2 : list nat) :
  forall c gs,
    interleave c gs (s1 ++ s2)
    = interleave (snd (interleave c gs s1)) (fst (interleave c gs s1)) s2.
Proof.
  induction s1 as [|i s1 IH]; intros c gs; cbn [app interleave]; [reflexivity|].
  destruct (nth_error gs i) as [g|]; [|apply IH].
  destruct (atomic_step c g) as [g' c']. apply IH.
Qed.

Lemma nth_error_middle {A : Type} (l1 : list A) (x : A) (l2 : list A) :
  nth_error (l1 ++ x :: l2) (length l1) = Some x.
Proof. induction l1; cbn; auto. Qed.

Lemma set_nth_middle {A : Type} (l1 : list A) (x y : A) (l2 : list A) :
  set_nth (length l1) y (l1 ++ x :: l2) = l1 ++ y :: l2.
Proof. induction l1; cbn; [reflexivity | now f_equal]. Qed.

Lemma one_by_one_from (ks : list Call) :
  forall c done,
    interleave c (done ++ map Pending ks)
      (flat_map (fun i => [i; i]) (seq (length done) (length ks)))
    = (done ++ map Finished (fst (run c ks)), snd (run c ks)).
Proof.
  induction ks as [|k ks IH]; intros c done.
  - reflexivity.
  - cbn [length seq flat_map map app].
    change (?a :: ?b :: ?l) with ([a; b] ++ l) at 1.
    cbn [interleave app].
    rewrite nth_error_middle.
    pose proof (atomic_steps_are_the_call c k) as H2.
    destruct (atomic_step c (Pending k)) as [g1 c1].
    rewrite set_nth_middle, nth_error_middle, H2, set_nth_middle.
    specialize (IH (snd (step c k)) (done ++ [Finished (fst (step c k))])).
    rewrite <- app_assoc in IH. cbn [app] in IH.
    rewrite length_app in IH. cbn [length] in IH.
    replace (length done + 1)%nat with (S (length done)) in IH by lia.
    rewrite IH. cbn [run].
    destruct (step c k) as [ev c']. cbn [fst snd].
    destruct (run c' ks) as [evs c'']. cbn [fst snd map].
    now rewrite <- app_assoc.
Qed.

(** ** Interleavings

    The two embeddings agree: scheduling the goroutines one after the
    other, each running its call to the end, gives the results and the
    limiter of the sequential [run]. *)
Lemma one_by_one_is_sequential (c : cacheLimiter) (ks : list Call) :
  interleave c (map Pending ks) (one_by_one (length ks))
  = (map Finished (fst (run c ks)), snd (run c ks)).
Proof. exact (one_by_one_from ks c []). Qed.

Lemma total_set_nth (f : Goroutine -> Z) (gs : list Goroutine) :
  forall i g g',
    nth_error gs i = Some g ->
    total f (set_nth i g' gs) = total f gs - f g + f g'.
Proof.
  induction gs as [|g0 gs IH]; intros [|i] g g' H; cbn in *; try discriminate.
  - injection H as ->. lia.
  - rewrite (IH i g g' H). lia.
Qed.

Lemma total_held (gs : list Goroutine) :
  total held gs = committed (history gs) - removed (history gs) + overshoot gs.
Proof.
  induction gs as [|g gs IH]; [reflexivity|].
  destruct g as [k|count r|[count r [|]|count]];
    cbn [total held history overshoot committed removed]; lia.
Qed.

Lemma total_pending (ks : list Call) : total held (map Pending ks) = 0.
Proof. induction ks; cbn; lia. Qed.

Lemma wrap_sub_congr (a b h : Z) :
  Int64.wrap a = Int64.wrap b -> Int64.wrap (a - h) = Int64.wrap (b - h).
Proof.
  intros H. rewrite <- !Z.add_opp_r.
  rewrite <- (wrap_add_l a (- h)), <- (wrap_add_l b (- h)).
  now rewrite H.
Qed.

Lemma atomic_step_conserves (c : cacheLimiter) (g : Goroutine) :
  Int64.wrap (value (snd (atomic_step c g)) - held (fst (atomic_step c g)))
  = Int64.wrap (value c - held g).
Proof.
  destruct g as [[count r|count]|count r|ev]; cbn [atomic_step].
  - cbn [AddInt64]. destruct (_ <=? _); cbn [fst snd value held];
      unfold Int64.add; rewrite <- (Z.add_opp_r (Int64.wrap _));
      rewrite wrap_add_l; f_equal; lia.
  - cbn [fst snd held]. rewrite RemoveBytes_value.
    rewrite <- Z.add_opp_r, wrap_add_l. f_equal. lia.
  - cbn [AddInt64 fst snd value held]. unfold Int64.add, Int64.neg.
    rewrite wrap_add_r, Z.sub_0_r.
    now rewrite (wrap_small _ (wrap_in_range _)).
  - reflexivity.
Qed.

Lemma atomic_step_in_range (c : cacheLimiter) (g : Goroutine) :
  Int64.in_range (value c) -> Int64.in_range (value (snd (atomic_step c g))).
Proof.
  intros H. destruct g as [[count r|count]|count r|ev]; cbn [atomic_step].
  - cbn [AddInt64]. destruct (_ <=? _); apply add_in_range.
  - cbn [snd]. rewrite RemoveBytes_value. apply wrap_in_range.
  - apply add_in_range.
  - exact H.
Qed.

Lemma atomic_step_limit (c : cacheLimiter) (g : Goroutine) :
  limit (snd (atomic_step c g)) = limit c.
Proof.
  destruct g as [[count r|count]|count r|ev]; cbn [atomic_step]; try reflexivity.
  cbn [AddInt64]. now destruct (_ <=? _).
Qed.

Lemma atomic_step_call_of (c : cacheLimiter) (g : Goroutine) :
  call_of (fst (atomic_step c g)) = call_of g.
Proof.
  destruct g as [[count r|count]|count r|ev]; cbn [atomic_step]; try reflexivity.
  cbn [AddInt64]. now destruct (_ <=? _).
Qed.

Lemma map_set_nth_same {A B : Type} (f : A -> B) (l : list A) :
  forall i x y, nth_error l i = Some x -> f y = f x ->
                map f (set_nth i y l) = map f l.
Proof.
  induction l as [|z l IH]; intros [|i] x y H E; cbn in *; try discriminate.
  - injection H as ->. now rewrite E.
  - f_equal. eapply IH; eauto.
Qed.

Lemma interleave_invariant (sched : list nat) :
  forall c gs,
    Int64.in_range (value c) ->
    let res := interleave c gs sched in
    Int64.wrap (value (snd res) - total held (fst res))
    = Int64.wrap (value c - total held gs)
    /\ Int64.in_range (value (snd res))
    /\ limit (snd res) = limit c
    /\ map call_of (fst res) = map call_of gs.
Proof.
  induction sched as [|i sched IH]; intros c gs Hv; cbn [interleave].
  - cbn. auto.
  - destruct (nth_error gs i) as [g|] eqn:En; [|now apply IH].
    pose proof (atomic_step_conserves c g) as Hc.
    pose proof (atomic_step_in_range c g Hv) as Hr.
    pose proof (atomic_step_limit c g) as Hl.
    pose proof (atomic_step_call_of c g) as Hk.
    destruct (atomic_step c g) as [g' c']. cbn [fst snd] in *.
    specialize (IH c' (set_nth i g' gs) Hr). cbv zeta in *.
    destruct IH as (I1 & I2 & I3 & I4).
    rewrite (total_set_nth held gs i g g' En) in I1.
    rewrite (map_set_nth_same call_of gs i g g' En Hk) in I4.
    split; [|split; [exact I2 | split; [congruence | exact I4]]].
    rewrite I1.
    replace (value c' - (total held gs - held g + held g'))
      with (value c' - held g' - (total held gs - held g)) by lia.
    replace (value c - total held gs)
      with (value c - held g - (total held gs - held g)) by lia.
    now apply wrap_sub_congr.
Qed.

(** At every point of every interleaving the counter is, as an [int64],
    its initial value plus the counts admitted so far, minus the counts
    removed so far, plus the counts of the calls that have overshot and
    not yet rolled back; each goroutine is still on the call it was given
    and the limit is untouched. *)
Theorem interleaving_conserves_bytes
  (c : cacheLimiter) (ks : list Call) (sched : list nat) :
  Int64.in_range (value c) ->
  let gs := fst (interleave c (map Pending ks) sched) in
  let c' := snd (interleave c (map Pending ks) sched) in
  value c'
  = Int64.wrap (value c + committed (history gs) - removed (history gs)
                + overshoot gs)
  /\ map call_of gs = ks
  /\ limit c' = limit c.
Proof.
  intros Hv gs c'.
  pose proof (interleave_invariant sched c (map Pending ks) Hv) as H.
  cbv zeta in H. fold gs c' in H. destruct H as (H1 & H2 & H3 & H4).
  rewrite total_pending, Z.sub_0_r, (wrap_small (value c) Hv) in H1.
  split; [|split; [|exact H3]].
  - rewrite <- (wrap_small (value c') H2).
    replace (value c') with (value c' - total held gs + total held gs) by lia.
    rewrite <- wrap_add_l, H1, total_held. f_equal. lia.
  - rewrite H4, map_map. cbn [call_of]. apply map_id.
Qed.

Lemma interleaving_conserves_bytes_witness :
  let c := {| value := 60; limit := 100 |} in
  let ks := [CallTryAddBytes 50 true; CallTryAddBytes 40 true;
             CallRemoveBytes 5] in
  let gs := fst (interleave c (map Pending ks) [0; 1; 2]%nat) in
  let c' := snd (interleave c (map Pending ks) [0; 1; 2]%nat) in
  value c'
  = Int64.wrap (value c + committed (history gs) - removed (history gs)
                + overshoot gs)
  /\ map call_of gs = ks
  /\ limit c' = limit c.
Proof.
  apply (interleaving_conserves_bytes {| value := 60; limit := 100 |}
           [CallTryAddBytes 50 true; CallTryAddBytes 40 true;
            CallRemoveBytes 5] [0; 1; 2]%nat).
  in_range_by_computation.
Defined.

Lemma total_rolling_back (gs : list Goroutine) :
  total rolling_back gs = overshoot gs.
Proof.
  induction gs as [|[k|count r|ev] gs IH]; cbn [total rolling_back overshoot]; lia.
Qed.

Lemma total_pending_calls (ks : list Call) :
  total pending_add (map Pending ks) = requested ks
  /\ total pending_remove (map Pending ks) = released ks
  /\ total rolling_back (map Pending ks) = 0.
Proof.
  induction ks as [|[count r|count] ks (I1 & I2 & I3)]; cbn; repeat split; lia.
Qed.

Lemma totals_nonneg (gs : list Goroutine) :
  Forall sane_count (map call_of gs) ->
  0 <= total pending_add gs /\ 0 <= total pending_remove gs
  /\ 0 <= total rolling_back gs.
Proof.
  induction gs as [|g gs IH]; intros H; cbn [total]; [lia|].
  cbn [map] in H. apply Forall_cons_iff in H as [Hg H].
  specialize (IH H). unfold sane_count in Hg.
  destruct g as [[count r|count]|count r|[count r b|count]];
    cbn [pending_add pending_remove rolling_back call_of call_count] in *; lia.
Qed.

Lemma overshoot_finished (gs : list Goroutine) :
  Forall is_finished gs -> overshoot gs = 0.
Proof.
  induction 1 as [|g gs Hg _ IH]; [reflexivity|].
  destruct g; cbn in *; try contradiction. exact IH.
Qed.

Lemma nth_error_map_Forall {A B : Type} (f : A -> B) (P : B -> Prop)
  (l : list A) (i : nat) (x : A) :
  Forall P (map f l) -> nth_error l i = Some x -> P (f x).
Proof.
  intros H En. rewrite Forall_forall in H. apply H.
  apply in_map. eapply nth_error_In; eauto.
Qed.

Lemma sane_parts (gs : list Goroutine) :
  Forall sane_count (map call_of gs) ->
  Forall (fun g => 0 <= pending_add g /\ 0 <= pending_remove g
                   /\ 0 <= rolling_back g) gs.
Proof.
  induction gs as [|g gs IH]; intros H; constructor.
  - cbn [map] in H. apply Forall_cons_iff in H as [Hg _].
    unfold sane_count in Hg.
    destruct g as [[count r|count]|count r|[count r b|count]];
      cbn [pending_add pending_remove rolling_back call_of call_count] in *; lia.
  - apply IH. cbn [map] in H. now apply Forall_cons_iff in H as [_ H].
Qed.

Lemma total_ge_nth (f : Goroutine -> Z) (gs : list Goroutine) :
  Forall (fun g => 0 <= f g) gs ->
  forall i g, nth_error gs i = Some g -> 0 <= total f gs - f g.
Proof.
  induction 1 as [|g0 gs H0 Hgs IH]; intros [|i] g En; cbn in *; try discriminate.
  - injection En as ->.
    assert (0 <= total f gs); [|lia].
    clear IH. induction Hgs; cbn; lia.
  - specialize (IH i g En). lia.
Qed.

Lemma atomic_step_ceiling (c : cacheLimiter) (g : Goroutine) (A R O : Z) :
  0 <= limit c -> Int64.in_range (limit c) -> Int64.in_range (value c) ->
  sane_count (call_of g) -> 0 <= A -> 0 <= R -> 0 <= O ->
  value c + (A + pending_add g) <= Int64.max_int64 ->
  Int64.min_int64 <= value c - (R + pending_remove g) - (O + rolling_back g) ->
  value c - (O + rolling_back g) <= limit c ->
  Int64.in_range (value (snd (atomic_step c g)))
  /\ value (snd (atomic_step c g)) - held (fst (atomic_step c g))
     = value c - held g
  /\ value (snd (atomic_step c g)) + (A + pending_add (fst (atomic_step c g)))
     <= Int64.max_int64
  /\ Int64.min_int64
     <= value (snd (atomic_step c g))
        - (R + pending_remove (fst (atomic_step c g)))
        - (O + rolling_back (fst (atomic_step c g)))
  /\ value (snd (atomic_step c g)) - (O + rolling_back (fst (atomic_step c g)))
     <= limit c.
Proof.
  intros Hl0 Hlr Hv Hg HA HR HO Hmax Hmin Hle. unfold sane_count in Hg.
  destruct g as [[count r|count]|count r|ev];
    cbn [atomic_step call_of call_count pending_add pending_remove
           rolling_back held] in *.
  - pose proof (effectiveLimit_le_limit c r Hl0 Hlr) as Hel.
    assert (Int64.add (value c) count = value c + count) as Ea
      by (apply add_exact; i64_unfold; lia).
    cbn [AddInt64]. rewrite Ea.
    destruct (Z.leb_spec (value c + count) (effectiveLimit c r));
      cbn [fst snd value pending_add pending_remove rolling_back held];
      repeat split; i64_unfold; lia.
  - cbn [fst snd pending_add pending_remove rolling_back held].
    rewrite RemoveBytes_value, wrap_small by (i64_unfold; lia).
    repeat split; i64_unfold; lia.
  - cbn [AddInt64 fst snd value pending_add pending_remove rolling_back held].
    rewrite neg_exact by (i64_unfold; lia).
    rewrite add_exact by (i64_unfold; lia).
    repeat split; i64_unfold; lia.
  - cbn [fst snd]. repeat split; try assumption; lia.
Qed.

Lemma interleave_ceiling (sched : list nat) :
  forall c gs,
    0 <= limit c -> Int64.in_range (limit c) ->
    Int64.in_range (value c) ->
    Forall sane_count (map call_of gs) ->
    value c + total pending_add gs <= Int64.max_int64 ->
    Int64.min_int64 <= value c - total pending_remove gs - total rolling_back gs ->
    value c - total rolling_back gs <= limit c ->
    let res := interleave c gs sched in
    value (snd res) - total held (fst res) = value c - total held gs
    /\ value (snd res) - total rolling_back (fst res) <= limit c
    /\ 0 <= total rolling_back (fst res).
Proof.
  induction sched as [|i sched IH]; intros c gs Hl0 Hlr Hv Hs Hmax Hmin Hle;
    cbn [interleave].
  - cbn [fst snd]. pose proof (totals_nonneg gs Hs). lia.
  - destruct (nth_error gs i) as [g|] eqn:En;
      [|now apply IH].
    pose proof (nth_error_map_Forall call_of sane_count gs i g Hs En) as Hg.
    pose proof (atomic_step_call_of c g) as Hk.
    pose proof (atomic_step_limit c g) as Hl.
    pose proof (sane_parts gs Hs) as Hp.
    assert (0 <= total pending_add gs - pending_add g) as HA
      by (apply (total_ge_nth pending_add gs) with (i := i); [|exact En];
          eapply Forall_impl; [|exact Hp]; cbn; intros; lia).
    assert (0 <= total pending_remove gs - pending_remove g) as HR
      by (apply (total_ge_nth pending_remove gs) with (i := i); [|exact En];
          eapply Forall_impl; [|exact Hp]; cbn; intros; lia).
    assert (0 <= total rolling_back gs - rolling_back g) as HO
      by (apply (total_ge_nth rolling_back gs) with (i := i); [|exact En];
          eapply Forall_impl; [|exact Hp]; cbn; intros; lia).
    pose proof (atomic_step_ceiling c g _ _ _ Hl0 Hlr Hv Hg HA HR HO
                  ltac:(lia) ltac:(lia) ltac:(lia))
      as (Hv' & Hh & Hmax' & Hmin' & Hle').
    destruct (atomic_step c g) as [g' c']. cbn [fst snd] in *.
    specialize (IH c' (set_nth i g' gs)). cbv zeta in IH.
    rewrite !(total_set_nth _ gs i g g' En) in IH.
    rewrite (map_set_nth_same call_of gs i g g' En Hk) in IH.
    rewrite Hl in IH.
    specialize (IH Hl0 Hlr Hv' Hs ltac:(lia) ltac:(lia) ltac:(lia)).
    destruct IH as (I1 & I2 & I3).
    split; [lia | split; assumption].
Qed.

(** With a non-negative limit, non-negative counts and no overflow, at
    every point of every interleaving the counter less the pending
    overshoot is at or below the limit (and the counter equation holds
    exactly); once every call has returned the counter itself is at or
    below the limit. *)
Theorem interleaving_keeps_the_limit
  (c : cacheLimiter) (ks : list Call) (sched : list nat) :
  0 <= limit c -> Int64.in_range (limit c) -> Int64.in_range (value c) ->
  value c <= limit c ->
  Forall (fun k => 0 <= call_count k <= Int64.max_int64) ks ->
  value c + requested ks <= Int64.max_int64 ->
  Int64.min_int64 <= value c - released ks ->
  let gs := fst (interleave c (map Pending ks) sched) in
  let c' := snd (interleave c (map Pending ks) sched) in
  value c'
  = value c + committed (history gs) - removed (history gs) + overshoot gs
  /\ 0 <= overshoot gs
  /\ value c' - overshoot gs <= limit c
  /\ (Forall is_finished gs -> value c' <= limit c).
Proof.
  intros Hl0 Hlr Hv Hle Hs Hmax Hmin gs c'.
  pose proof (total_pending_calls ks) as (P1 & P2 & P3).
  assert (Forall sane_count (map call_of (map Pending ks))) as Hs'
    by (rewrite map_map; cbn [call_of]; rewrite map_id; exact Hs).
  pose proof (interleave_ceiling sched c (map Pending ks) Hl0 Hlr Hv Hs'
                ltac:(lia) ltac:(lia) ltac:(lia)) as H.
  cbv zeta in H. fold gs c' in H. destruct H as (H1 & H2 & H3).
  rewrite total_pending, total_held in H1.
  rewrite total_rolling_back in H2, H3.
  repeat split; try lia.
  intros Hf. rewrite (overshoot_finished gs Hf) in H2. lia.
Qed.

Lemma interleaving_keeps_the_limit_witness :
  let c := {| value := 60; limit := 100 |} in
  let ks := [CallTryAddBytes 50 true; CallTryAddBytes 40 true;
             CallRemoveBytes 5] in
  let gs := fst (interleave c (map Pending ks) [0; 1; 2]%nat) in
  let c' := snd (interleave c (map Pending ks) [0; 1; 2]%nat) in
  value c'
  = value c + committed (history gs) - removed (history gs) + overshoot gs
  /\ 0 <= overshoot gs
  /\ value c' - overshoot gs <= limit c
  /\ (Forall is_finished gs -> value c' <= limit c).
Proof.
  apply (interleaving_keeps_the_limit {| value := 60; limit := 100 |}
           [CallTryAddBytes 50 true; CallTryAddBytes 40 true;
            CallRemoveBytes 5] [0; 1; 2]%nat).
  - cbn. lia.
  - in_range_by_computation.
  - in_range_by_computation.
  - cbn. lia.
  - repeat constructor; cbn; try lia; vm_compute; discriminate.
  - vm_compute. discriminate.
  - vm_compute. discriminate.
Defined.

Lemma effectiveLimit_same_limit (v : Z) (c : cacheLimiter) (r : bool) :
  effectiveLimit {| value := v; limit := limit c |} r = effectiveLimit c r.
Proof. reflexivity. Qed.

(** Contention can refuse a request that fits.  Let request [a] not fit
    and request [b] fit, but not on top of [a].  If [b]'s add lands
    between [a]'s add and [a]'s rollback, both calls return [false] and the
    counter is back where it was, although [b] is admitted when the two
    calls run one after the other, and when it runs alone. *)
Theorem contention_refuses_a_request_that_fits
  (c : cacheLimiter) (a b : Z) (ra rb : bool) :
  Int64.in_range (value c) ->
  0 <= a <= Int64.max_int64 -> 0 <= b <= Int64.max_int64 ->
  value c + a + b <= Int64.max_int64 ->
  effectiveLimit c ra < value c + a ->
  value c + b <= effectiveLimit c rb ->
  effectiveLimit c rb < value c + a + b ->
  interleave c [Pending (CallTryAddBytes a ra); Pending (CallTryAddBytes b rb)]
    [0; 1; 1; 0]%nat
  = ([Finished (EvTryAddBytes a ra false); Finished (EvTryAddBytes b rb false)], c)
  /\ fst (run c [CallTryAddBytes a ra; CallTryAddBytes b rb])
     = [EvTryAddBytes a ra false; EvTryAddBytes b rb true]
  /\ fst (TryAddBytes c b rb) = true.
Proof.
  intros Hv Ha Hb Hmax HA HB HAB.
  assert (Int64.add (value c) a = value c + a) as E1
    by (apply add_exact; i64_unfold; lia).
  assert (Int64.add (value c + a) b = value c + a + b) as E2
    by (apply add_exact; i64_unfold; lia).
  assert (Int64.add (value c + a + b) (Int64.neg b) = value c + a) as E3.
  { rewrite neg_exact by (i64_unfold; lia).
    rewrite add_exact by (i64_unfold; lia). lia. }
  assert (Int64.add (value c + a) (Int64.neg a) = value c) as E4.
  { rewrite neg_exact by (i64_unfold; lia).
    rewrite add_exact by (i64_unfold; lia). lia. }
  assert (Int64.add (value c) b = value c + b) as E5
    by (apply add_exact; i64_unfold; lia).
  split; [|split].
  - cbn [interleave nth_error set_nth atomic_step AddInt64].
    rewrite E1. destruct (Z.leb_spec (value c + a) (effectiveLimit c ra)); [lia|].
    cbn [interleave nth_error set_nth atomic_step AddInt64 value limit].
    rewrite effectiveLimit_same_limit, E2.
    destruct (Z.leb_spec (value c + a + b) (effectiveLimit c rb)); [lia|].
    cbn [interleave nth_error set_nth atomic_step AddInt64 value limit].
    rewrite E3, E4. now rewrite cacheLimiter_eta.
  - cbn [run step].
    rewrite (TryAddBytes_failure c a ra) by (rewrite E1; lia).
    rewrite add_neg_cancel, cacheLimiter_eta by assumption.
    rewrite (TryAddBytes_success c b rb) by (rewrite E5; lia).
    reflexivity.
  - now rewrite (TryAddBytes_success c b rb) by (rewrite E5; lia).
Qed.

Lemma contention_refuses_a_request_that_fits_witness :
  let c := {| value := 60; limit := 100 |} in
  interleave c [Pending (CallTryAddBytes 50 true); Pending (CallTryAddBytes 40 true)]
    [0; 1; 1; 0]%nat
  = ([Finished (EvTryAddBytes 50 true false);
      Finished (EvTryAddBytes 40 true false)], c)
  /\ fst (run c [CallTryAddBytes 50 true; CallTryAddBytes 40 true])
     = [EvTryAddBytes 50 true false; EvTryAddBytes 40 true true]
  /\ fst (TryAddBytes c 40 true) = true.
Proof.
  apply (contention_refuses_a_request_that_fits
           {| value := 60; limit := 100 |} 50 40 true true).
  - in_range_by_computation.
  - vm_compute. split; discriminate.
  - vm_compute. split; discriminate.
  - vm_compute. discriminate.
  - reflexivity.
  - vm_compute. discriminate.
  - reflexivity.
Defined.

Lemma counts_nonneg (g : Goroutine) :
  0 <= n_pending g /\ 0 <= n_rolling g /\ 0 <= n_admitted g /\ 0 <= n_refused g.
Proof. destruct g as [k|count r|[count r [|]|count]]; cbn; lia. Qed.

Lemma quotient_ge (s D x : Z) : 0 < s -> s * x <= D -> x <= D / s.
Proof. intros Hs H. apply Z.div_le_lower_bound; lia. Qed.

Lemma quotient_lt (s D x : Z) : 0 < s -> D < s * x -> D / s < x.
Proof. intros Hs H. apply Z.div_lt_upper_bound; lia. Qed.

Lemma atomic_step_identical
  (c : cacheLimiter) (g : Goroutine) (s v D : Z) (r : bool) (P0 T0 S0 F0 : Z) :
  0 < s <= Int64.max_int64 -> 0 <= D -> effectiveLimit c r = v + D ->
  call_of g = CallTryAddBytes s r ->
  0 <= P0 -> 0 <= T0 -> 0 <= S0 -> 0 <= F0 ->
  Int64.min_int64 <= v ->
  v + s * (P0 + n_pending g + T0 + n_rolling g + S0 + n_admitted g)
    <= Int64.max_int64 ->
  value c = v + s * (S0 + n_admitted g + T0 + n_rolling g) ->
  S0 + n_admitted g <= D / s ->
  (0 < T0 + n_rolling g + F0 + n_refused g -> S0 + n_admitted g = D / s) ->
  let g' := fst (atomic_step c g) in
  let c' := snd (atomic_step c g) in
  v + s * (P0 + n_pending g' + T0 + n_rolling g' + S0 + n_admitted g')
    <= Int64.max_int64
  /\ value c' = v + s * (S0 + n_admitted g' + T0 + n_rolling g')
  /\ S0 + n_admitted g' <= D / s
  /\ (0 < T0 + n_rolling g' + F0 + n_refused g' -> S0 + n_admitted g' = D / s)
  /\ P0 + n_pending g' + T0 + n_rolling g' + S0 + n_admitted g' + F0 + n_refused g'
     = P0 + n_pending g + T0 + n_rolling g + S0 + n_admitted g + F0 + n_refused g
  /\ s * n_admitted g' = held g' - s * n_rolling g'.
Proof.
  intros Hs HD Hlim Hcall HP HT HS HF Hmin Hmax Hval Hk Hfull g' c'.
  subst g' c'.
  destruct g as [[count r'|count]|count r'|[count r' b|count]];
    cbn [call_of] in Hcall; try discriminate;
    injection Hcall as -> ->;
    cbn [atomic_step n_pending n_rolling n_admitted n_refused] in *.
  - (* the add *)
    assert (Int64.add (value c) s = value c + s) as Ea
      by (apply add_exact; i64_unfold; nia).
    cbn [AddInt64]. rewrite Ea, Hlim.
    destruct (Z.leb_spec (value c + s) (v + D)) as [Hle|Hgt];
      cbn [fst snd value n_pending n_rolling n_admitted n_refused held].
    + assert (S0 + 0 + T0 + 0 + 1 <= D / s) as Hq
        by (apply quotient_ge; [lia | nia]).
      repeat split; try nia; try lia.
    + assert (D / s < S0 + 0 + T0 + 0 + 1) as Hq
        by (apply quotient_lt; [lia | nia]).
      repeat split; try nia; try lia.
  - (* the rollback *)
    cbn [AddInt64 fst snd value n_pending n_rolling n_admitted n_refused held].
    rewrite neg_exact by (i64_unfold; nia).
    rewrite add_exact by (i64_unfold; nia).
    repeat split; try nia; try lia.
  - (* returned *)
    destruct b; cbn [fst snd n_pending n_rolling n_admitted n_refused held] in *;
      repeat split; try nia; try lia.
Qed.

Lemma effectiveLimit_by_limit (c c' : cacheLimiter) (r : bool) :
  limit c' = limit c -> effectiveLimit c' r = effectiveLimit c r.
Proof. unfold effectiveLimit. now intros ->. Qed.

Lemma committed_identical (s : Z) (r : bool) (gs : list Goroutine) :
  Forall (fun k => k = CallTryAddBytes s r) (map call_of gs) ->
  committed (history gs) = s * total n_admitted gs.
Proof.
  induction gs as [|g gs IH]; intros H; [cbn; lia|].
  cbn [map] in H. apply Forall_cons_iff in H as [Hg H]. specialize (IH H).
  destruct g as [k|count r'|[count r' [|]|count]];
    cbn [history committed total n_admitted call_of] in *;
    try discriminate; try injection Hg as -> ->; lia.
Qed.

Lemma finished_counts (gs : list Goroutine) :
  Forall is_finished gs -> total n_pending gs = 0 /\ total n_rolling gs = 0.
Proof.
  induction 1 as [|g gs Hg _ IH]; [split; reflexivity|].
  destruct g; cbn in *; try contradiction. exact IH.
Qed.

Lemma counts_of_pending (ks : list Call) :
  total n_pending (map Pending ks) = Z.of_nat (length ks)
  /\ total n_rolling (map Pending ks) = 0
  /\ total n_admitted (map Pending ks) = 0
  /\ total n_refused (map Pending ks) = 0.
Proof.
  induction ks as [|k ks (I1 & I2 & I3 & I4)]; [repeat split|].
  cbn [map total length n_pending n_rolling n_admitted n_refused].
  rewrite I1, I2, I3, I4. repeat split; lia.
Qed.

Lemma Forall_counts_nonneg (f : Goroutine -> Z) (gs : list Goroutine) :
  (forall g, 0 <= f g) -> Forall (fun g => 0 <= f g) gs.
Proof. intros H. induction gs; constructor; auto. Qed.

Lemma interleave_identical (s v D : Z) (r : bool) (sched : list nat) :
  0 < s <= Int64.max_int64 -> 0 <= D -> Int64.min_int64 <= v ->
  forall c gs,
    effectiveLimit c r = v + D ->
    Forall (fun k => k = CallTryAddBytes s r) (map call_of gs) ->
    v + s * (total n_pending gs + total n_rolling gs + total n_admitted gs)
      <= Int64.max_int64 ->
    value c = v + s * (total n_admitted gs + total n_rolling gs) ->
    total n_admitted gs <= D / s ->
    (0 < total n_rolling gs + total n_refused gs -> total n_admitted gs = D / s) ->
    let gs' := fst (interleave c gs sched) in
    let c' := snd (interleave c gs sched) in
    value c' = v + s * (total n_admitted gs' + total n_rolling gs')
    /\ total n_admitted gs' <= D / s
    /\ (0 < total n_rolling gs' + total n_refused gs' ->
        total n_admitted gs' = D / s)
    /\ total n_pending gs' + total n_rolling gs' + total n_admitted gs'
       + total n_refused gs'
       = total n_pending gs + total n_rolling gs + total n_admitted gs
         + total n_refused gs
    /\ Forall (fun k => k = CallTryAddBytes s r) (map call_of gs').
Proof.
  intros Hs HD Hmin.
  induction sched as [|i sched IH]; intros c gs Hlim Hcalls Hmax Hval Hk Hfull;
    cbn [interleave].
  - cbn [fst snd]. repeat split; assumption.
  - destruct (nth_error gs i) as [g|] eqn:En; [|now apply IH].
    pose proof (nth_error_map_Forall call_of _ gs i g Hcalls En) as Hg.
    cbn beta in Hg.
    pose proof (atomic_step_call_of c g) as Hco.
    pose proof (atomic_step_limit c g) as Hl.
    pose proof (fun f H => total_ge_nth f gs (Forall_counts_nonneg f gs H) i g En)
      as Hrest.
    pose proof (Hrest n_pending (fun g => proj1 (counts_nonneg g))) as HP.
    pose proof (Hrest n_rolling (fun g => proj1 (proj2 (counts_nonneg g)))) as HT.
    pose proof (Hrest n_admitted
                  (fun g => proj1 (proj2 (proj2 (counts_nonneg g))))) as HS.
    pose proof (Hrest n_refused
                  (fun g => proj2 (proj2 (proj2 (counts_nonneg g))))) as HF.
    clear Hrest.
    pose proof (atomic_step_identical c g s v D r _ _ _ _
                  Hs HD Hlim Hg HP HT HS HF Hmin) as Hstep.
    cbv zeta in Hstep.
    destruct Hstep as (S1 & S2 & S3 & S4 & S5 & _).
    { eapply Z.le_trans; [|exact Hmax]. apply Z.add_le_mono_l.
      apply Z.mul_le_mono_nonneg_l; lia. }
    { rewrite Hval. f_equal. f_equal. lia. }
    { lia. }
    { intros H. rewrite <- Hfull; lia. }
    destruct (atomic_step c g) as [g' c']. cbn [fst snd] in *.
    specialize (IH c' (set_nth i g' gs)). cbv zeta in IH.
    rewrite !(total_set_nth _ gs i g g' En) in IH.
    rewrite (map_set_nth_same call_of gs i g g' En Hco) in IH.
    destruct IH as (I1 & I2 & I3 & I4 & I5).
    + rewrite (effectiveLimit_by_limit c c' r Hl). exact Hlim.
    + exact Hcalls.
    + eapply Z.le_trans; [|exact S1]. apply Z.add_le_mono_l.
      apply Z.mul_le_mono_nonneg_l; lia.
    + rewrite S2. f_equal. f_equal. lia.
    + lia.
    + intros H. rewrite <- S4; lia.
    + repeat split; try assumption. lia.
Qed.

(** Equal requests are not refused by contention.  When [n] goroutines
    each ask for the same [s > 0] bytes under the same flag, and [k] such
    requests fit under the threshold, then under every interleaving, once
    all have returned, exactly [min n k] of them were admitted and the
    counter has grown by [s * min n k]. *)
Theorem identical_requests_fill_the_limiter
  (c : cacheLimiter) (s : Z) (relaxed : bool) (n : nat) (sched : list nat) :
  Int64.in_range (value c) -> 0 < s <= Int64.max_int64 ->
  value c <= effectiveLimit c relaxed ->
  value c + s * Z.of_nat n <= Int64.max_int64 ->
  let k := (effectiveLimit c relaxed - value c) / s in
  let gs := fst (interleave c
                   (map Pending (repeat (CallTryAddBytes s relaxed) n)) sched) in
  let c' := snd (interleave c
                   (map Pending (repeat (CallTryAddBytes s relaxed) n)) sched) in
  Forall is_finished gs ->
  committed (history gs) = s * Z.min (Z.of_nat n) k
  /\ value c' = value c + s * Z.min (Z.of_nat n) k.
Proof.
  intros Hv Hs Hroom Hmax k gs c' Hfin.
  set (ks := repeat (CallTryAddBytes s relaxed) n) in *.
  pose proof (counts_of_pending ks) as (C1 & C2 & C3 & C4).
  assert (length ks = n) as Hlen by (subst ks; apply repeat_length).
  rewrite Hlen in C1.
  assert (Forall (fun k0 => k0 = CallTryAddBytes s relaxed)
            (map call_of (map Pending ks))) as Hcalls.
  { rewrite map_map. cbn [call_of]. rewrite map_id. subst ks.
    apply Forall_forall. intros x Hx. now apply repeat_spec in Hx. }
  pose proof (interleave_identical s (value c) (effectiveLimit c relaxed - value c)
                relaxed sched Hs ltac:(lia) ltac:(i64_unfold; lia)
                c (map Pending ks) ltac:(lia) Hcalls) as H.
  rewrite C1, C2, C3, C4 in H. cbv zeta in H. fold gs c' k in H.
  destruct H as (I1 & I2 & I3 & I4 & I5).
  - rewrite !Z.add_0_r. exact Hmax.
  - lia.
  - apply Z.div_pos; lia.
  - lia.
  - pose proof (finished_counts gs Hfin) as (F1 & F2).
    rewrite F1, F2 in *.
    rewrite (committed_identical s relaxed gs I5).
    pose proof (Forall_counts_nonneg n_refused gs
                  (fun g => proj2 (proj2 (proj2 (counts_nonneg g))))) as Hnn.
    assert (0 <= total n_refused gs) as Hrf
      by (clear -Hnn; induction Hnn; cbn; lia).
    assert (total n_admitted gs = Z.min (Z.of_nat n) k) as E.
    { destruct (Z.eq_dec (total n_refused gs) 0) as [E0|E0]; [lia|].
      specialize (I3 ltac:(lia)). lia. }
    rewrite I1, E. split; [reflexivity | f_equal; f_equal; lia].
Qed.

Lemma identical_requests_fill_the_limiter_witness :
  let c := NewCacheLimiter 100 in
  let sched := (seq 0 10 ++ seq 0 10)%list in
  let gs := fst (interleave c
                   (map Pending (repeat (CallTryAddBytes 15 false) 10)) sched) in
  let c' := snd (interleave c
                   (map Pending (repeat (CallTryAddBytes 15 false) 10)) sched) in
  committed (history gs) = 15 * Z.min 10 ((effectiveLimit c false - 0) / 15)
  /\ value c' = 0 + 15 * Z.min 10 ((effectiveLimit c false - 0) / 15).
Proof.
  apply (identical_requests_fill_the_limiter (NewCacheLimiter 100) 15 false 10
           (seq 0 10 ++ seq 0 10)).
  - in_range_by_computation.
  - vm_compute. split; [reflexivity | discriminate].
  - vm_compute. discriminate.
  - vm_compute. discriminate.
  - vm_compute. repeat constructor.
Defined.

(** The ten requests of 15 bytes against limit 100, strict, all adding
    before any rolls back: five admitted, the counter at 75. *)
Example ten_concurrent_requests :
  let c := NewCacheLimiter 100 in
  let res := interleave c (map Pending (repeat (CallTryAddBytes 15 false) 10))
               (seq 0 10 ++ seq 0 10) in
  committed (history (fst res)) = 75 /\ value (snd res) = 75.
Proof. vm_compute. split; reflexivity. Qed.
